(** * medulla_one_column: the named connectome, its loader and its query

    A shallow embedding of [main.go] (package [main] of
    JaneliaSciComp/medulla_one_column) and the properties of the
    connectome engine: [NamedConnectome] with [ConnectionStrength] and
    [AddConnection], [MatchingNames], the search behind [getSearchHTML]
    and the matrix loader [ReadConnectionsCSV].

    Conventions of the embedding
    - Go [int] is the 64-bit signed integer: a [Z] with the wrap-around of
      [+] written out ([GoInt.int_add]).  Lengths and slice indices are
      non-negative and bounded by the size of the object they measure, so
      [len] and index arithmetic stay in plain [Z].
    - Go strings are byte strings: [string] of 8-bit [ascii].
    - [map[string]T] is [gmap string T]; a missing key reads as [None]
      (the comma-ok form) or as the zero value (the plain index form).
    - A run-time panic and a [log.Fatal*] exit are results of their own
      ([Panic], [Fatal]); state is threaded explicitly through [M].
    - [range] over a map visits every key once in an order the Go
      run-time chooses afresh at each loop; [sort.Sort] is not stable.
      Both are taken from a [GoRuntime], of which the development only
      uses the documented contract. *)

From Stdlib Require Import ZArith Lia String Ascii List.
From stdpp Require Import base list strings gmap sorting pretty.

Local Open Scope Z_scope.

(** ** Go's [int] *)

Module GoInt.

Definition int_min : Z := - 2 ^ 63.
Definition int_max : Z := 2 ^ 63 - 1.

(** The value a 64-bit two's-complement register holds for [z]. *)
Definition wrap (z : Z) : Z := (z + 2 ^ 63) mod 2 ^ 64 - 2 ^ 63.

(** [x + y] on [int]. *)
Definition int_add (x y : Z) : Z := wrap (x + y).

Definition in_range (z : Z) : Prop := int_min ≤ z ≤ int_max.

End GoInt.
Import GoInt.

(** ** Results of a computation that may panic or exit *)

Inductive RuntimeError : Type :=
  | SliceBoundsOutOfRange (lo : Z) (length : Z)
  | IndexOutOfRange (i : Z) (length : Z)
  | AssignToNilMap.

Inductive FatalError : Type :=
  (** "CSV has inconsistent # of columns (%d) vs cell names supplied (%d)!" *)
  | InconsistentColumns (ncolumns nnames : Z)
  (** "Could not parse CSV line:" items *)
  | CouldNotParse (items : list string).

Inductive outcome (A : Type) : Type :=
  | Return (a : A)
  | Panic (e : RuntimeError)
  | Fatal (e : FatalError).
Arguments Return {A} a.
Arguments Panic {A} e.
Arguments Fatal {A} e.

(** Computations over a state [S]. *)
Definition M (S A : Type) : Type := S → outcome (A * S).

#[export] Instance M_ret {S} : MRet (M S) := λ A a s, Return (a, s).
#[export] Instance M_bind {S} : MBind (M S) := λ A B f m s,
  match m s with
  | Return (a, s') => f a s'
  | Panic e => Panic e
  | Fatal e => Fatal e
  end.

Definition get {S} : M S S := λ s, Return (s, s).
Definition put {S} (s : S) : M S unit := λ _, Return (tt, s).
Definition panic {S A} (e : RuntimeError) : M S A := λ _, Panic e.
Definition fatal {S A} (e : FatalError) : M S A := λ _, Fatal e.

(** A stateless result used inside a stateful computation. *)
Definition lift {S A} (o : outcome A) : M S A := λ s,
  match o with
  | Return a => Return (a, s)
  | Panic e => Panic e
  | Fatal e => Fatal e
  end.

(** A computation on one component [T] of the state [S]. *)
Definition zoom {S T A} (proj : S → T) (upd : T → S → S) (m : M T A) : M S A :=
  λ s,
  match m (proj s) with
  | Return (a, t) => Return (a, upd t s)
  | Panic e => Panic e
  | Fatal e => Fatal e
  end.

(** [for _, x := range l { a = f a x }] over a slice. *)
Fixpoint foldM {S A B} (f : A → B → M S A) (l : list B) (a : A) : M S A :=
  match l with
  | [] => mret a
  | x :: l' => a' ← f a x; foldM f l' a'
  end.

(** ** Strings, slices and the [strings] / [strconv] functions used *)

Module GoString.

Definition len (s : string) : Z := Z.of_nat (String.length s).

Fixpoint take (n : nat) (s : string) : string :=
  match n, s with
  | S n', String c s' => String c (take n' s')
  | _, _ => ""
  end.

Fixpoint drop (n : nat) (s : string) : string :=
  match n, s with
  | S n', String _ s' => drop n' s'
  | _, _ => s
  end.

(** [s[lo:]] *)
Definition sliceFrom (s : string) (lo : Z) : outcome string :=
  if decide (0 ≤ lo ≤ len s) then Return (drop (Z.to_nat lo) s)
  else Panic (SliceBoundsOutOfRange lo (len s)).

(** [s[:hi]] *)
Definition sliceTo (s : string) (hi : Z) : outcome string :=
  if decide (0 ≤ hi ≤ len s) then Return (take (Z.to_nat hi) s)
  else Panic (SliceBoundsOutOfRange hi (len s)).

(** [strings.HasPrefix(s, prefix)]:
    [len(s) >= len(prefix) && s[:len(prefix)] == prefix]. *)
Definition HasPrefix (s prefix : string) : bool :=
  bool_decide (len prefix ≤ len s) &&
  bool_decide (take (String.length prefix) s = prefix).

(** [strings.Split(s, sep)] for a one-byte separator, the only use in
    the program: the pieces between the separators, [Count(s, sep) + 1]
    of them, so the empty string splits into one empty piece. *)
Fixpoint Split (s : string) (sep : ascii) : list string :=
  match s with
  | "" => [""]
  | String c s' =>
      if decide (c = sep) then "" :: Split s' sep
      else match Split s' sep with
           | piece :: pieces => String c piece :: pieces
           | [] => [String c ""]
           end
  end.

Definition bytes (s : string) : list N := N_of_ascii <$> list_ascii_of_string s.
Definition of_bytes (l : list N) : string :=
  string_of_list_ascii (ascii_of_N <$> l).

(** [unicode.IsSpace] on the UTF-8 encoded text, read from the front:
    '\t' '\n' '\v' '\f' '\r' ' ', U+0085, U+00A0, U+1680, U+2000..U+200A,
    U+2028, U+2029, U+202F, U+205F, U+3000. *)
Fixpoint trimLeftSpace (l : list N) : list N :=
  match l with
  | (9 | 10 | 11 | 12 | 13 | 32)%N :: r => trimLeftSpace r
  | 194%N :: (133 | 160)%N :: r => trimLeftSpace r
  | 225%N :: 154%N :: 128%N :: r => trimLeftSpace r
  | 226%N :: 128%N :: c :: r =>
      if ((128 <=? c) && (c <=? 138) || (c =? 168) || (c =? 169) || (c =? 175))%N
      then trimLeftSpace r else l
  | 226%N :: 129%N :: 159%N :: r => trimLeftSpace r
  | 227%N :: 128%N :: 128%N :: r => trimLeftSpace r
  | _ => l
  end.

(** The same runes read from the back, on the reversed bytes. *)
Fixpoint trimLeftSpaceRev (l : list N) : list N :=
  match l with
  | (9 | 10 | 11 | 12 | 13 | 32)%N :: r => trimLeftSpaceRev r
  | (133 | 160)%N :: 194%N :: r => trimLeftSpaceRev r
  | 128%N :: 154%N :: 225%N :: r => trimLeftSpaceRev r
  | 159%N :: 129%N :: 226%N :: r => trimLeftSpaceRev r
  | 128%N :: 128%N :: 227%N :: r => trimLeftSpaceRev r
  | c :: 128%N :: 226%N :: r =>
      if ((128 <=? c) && (c <=? 138) || (c =? 168) || (c =? 169) || (c =? 175))%N
      then trimLeftSpaceRev r else l
  | _ => l
  end.

(** [strings.TrimSpace(s)]: all leading and trailing white space
    removed. *)
Definition TrimSpace (s : string) : string :=
  of_bytes (rev (trimLeftSpaceRev (rev (trimLeftSpace (bytes s))))).

Definition digit (c : ascii) : option Z :=
  let n := Z.of_N (N_of_ascii c) in
  if (48 <=? n) && (n <=? 57) then Some (n - 48) else None.

Fixpoint digits (s : string) (acc : Z) : option Z :=
  match s with
  | "" => Some acc
  | String c s' =>
      match digit c with
      | Some d => digits s' (acc * 10 + d)
      | None => None
      end
  end.

(** [strconv.Atoi(s)]: an optional sign and at least one decimal digit,
    the value within [int]; [None] stands for a non-nil error. *)
Definition Atoi (s : string) : option Z :=
  match s with
  | "" => None
  | String c s' =>
      let '(neg, ds) :=
        if decide (c = "-"%char) then (true, s')
        else if decide (c = "+"%char) then (false, s')
        else (false, s) in
      match ds with
      | "" => None
      | _ =>
          match digits ds 0 with
          | Some n =>
              let v := if neg : bool then - n else n in
              if decide (int_min ≤ v ≤ int_max) then Some v else None
          | None => None
          end
      end
  end.

End GoString.
Import GoString.

(** [l[i]] on a slice. *)
Definition index {A} (l : list A) (i : Z) : outcome A :=
  if decide (0 ≤ i) then
    match l !! Z.to_nat i with
    | Some x => Return x
    | None => Panic (IndexOutOfRange i (Z.of_nat (length l)))
    end
  else Panic (IndexOutOfRange i (Z.of_nat (length l))).

(** ** The connectome *)

(** [type Connection struct { pre, post string; strength int }] *)
Record Connection : Type := mkConnection {
  pre : string;
  post : string;
  strength : Z
}.

(** [type ConnectionList []Connection] *)
Abbreviation ConnectionList := (list Connection).

(** [ConnectionList.Less], on the two elements it compares:
    [list[i].strength > list[j].strength]. *)
Definition ConnectionList_Less (a b : Connection) : bool :=
  bool_decide (strength a > strength b).

(** [type NamedConnectome map[string](map[string]int)] *)
Abbreviation NamedConnectome := (gmap string (gmap string Z)).

(** The zero value a plain index expression [m[k]] yields for a missing
    key. *)
Definition zeroInt : Z := 0.
Definition nilMap : gmap string Z := ∅.

(** [nc[pre][post]] as an expression. *)
Definition index2 (nc : NamedConnectome) (pre post : string) : Z :=
  default zeroInt (default nilMap (nc !! pre) !! post).

(** The assignment [nc[pre][post] = v] on the dereferenced receiver: the
    inner map must exist. *)
Definition assign2 (pre post : string) (v : Z) : M NamedConnectome unit :=
  nc ← get;
  match nc !! pre with
  | Some connections => put (<[pre := <[post := v]> connections]> nc)
  | None => panic AssignToNilMap
  end.

(** [func (nc NamedConnectome) ConnectionStrength(pre, post string)
      (strength int, found bool)].
    A computation over the connectome the receiver refers to; its result
    is the pair of named results, which start as [0] and [false]. *)
Definition ConnectionStrength (pre post : string) : M NamedConnectome (Z * bool) :=
  nc ← get;
  match nc !! pre with
  | Some connections =>
      match connections !! post with
      | Some _ =>
          let strength := index2 nc pre post in
          if decide (strength = 0) then mret (strength, false)
          else mret (strength, true)
      | None => mret (zeroInt, false)
      end
  | None => mret (zeroInt, false)
  end.

(** [func (nc *NamedConnectome) AddConnection(pre, post string, strength int)] *)
Definition AddConnection (pre post : string) (strength : Z) : M NamedConnectome unit :=
  nc ← get;
  _ ← (if decide (size nc = 0%nat) then put (∅ : NamedConnectome) else mret tt);
  nc ← get;
  match nc !! pre with
  | Some connections =>
      match connections !! post with
      | Some _ => assign2 pre post (int_add (index2 nc pre post) strength)
      | None => assign2 pre post strength
      end
  | None =>
      _ ← put (<[pre := nilMap]> nc);
      assign2 pre post strength
  end.

(** ** The run-time: map iteration order and [sort.Sort] *)

(** What [sort.Interface] asks of [Less]: a transitive ordering whose
    negation is transitive too, and no element before itself. *)
Record StrictWeakOrder {A} (less : A → A → bool) : Prop := {
  less_irrefl x : less x x = false;
  less_trans x y z : less x y = true → less y z = true → less x z = true;
  not_less_trans x y z : less x y = false → less y z = false → less x z = false
}.

(** [data] is in ascending order as determined by [less]: no later
    element is less than an earlier one. *)
Definition ascending {A} (less : A → A → bool) (data : list A) : Prop :=
  StronglySorted (λ x y, less y x = false) data.

Class GoRuntime : Type := {
  (** whatever the run-time consults to pick an iteration order *)
  Seed : Type;
  (** the keys of [m] in the order of one [for k := range m] *)
  rangeKeys : ∀ {V}, gmap string V → Seed → list string * Seed;
  rangeKeys_keys : ∀ V (m : gmap string V) s,
    (rangeKeys m s).1 ≡ₚ (map_to_list m).*1;
  (** [sort.Sort(data)], given [data.Less] *)
  sort_Sort : ∀ {A}, (A → A → bool) → list A → list A;
  sort_Sort_perm : ∀ A less (data : list A), sort_Sort less data ≡ₚ data;
  sort_Sort_ascending : ∀ A less (data : list A),
    StrictWeakOrder less → ascending less (sort_Sort less data)
}.

(** [func (list ConnectionList) SortByStrength()] *)
Definition SortByStrength `{GoRuntime} (list : ConnectionList) : ConnectionList :=
  sort_Sort ConnectionList_Less list.

(** ** Name matching and the search *)

Section Search.
Context `{GoRuntime}.

(** The state a search runs in: the package-level [connectivity] and
    the run-time's iteration seed. *)
Record World : Type := mkWorld {
  connectivity : NamedConnectome;
  seed : Seed
}.

Definition onConnectivity {A} : M NamedConnectome A → M World A :=
  zoom connectivity (λ nc w, mkWorld nc (seed w)).

(** [for name, _ := range nc]: the names in this loop's order. *)
Definition rangeNames : M World (list string) :=
  λ w, let '(names, s) := rangeKeys (connectivity w) (seed w) in
       Return (names, mkWorld (connectivity w) s).

(** The body of the loop of [MatchingNames], for one [pattern]. *)
Definition matchPattern (matches : list string) (pattern : string)
    : M World (list string) :=
  last ← lift (sliceFrom pattern (len pattern - 1));
  if decide (last = "*") then
    (* Use as prefix *)
    pattern ← lift (sliceTo pattern (len pattern - 1));
    names ← rangeNames;
    mret (fold_left (λ matches name,
            if HasPrefix name pattern then matches ++ [name] else matches)
          names matches)
  else
    (* Require exact matching *)
    nc ← onConnectivity get;
    match nc !! pattern with
    | Some _ => mret (matches ++ [pattern])
    | None => mret matches
    end.

(** [func (nc NamedConnectome) MatchingNames(patterns []string)
      (matches []string)], the receiver being [connectivity]. *)
Definition MatchingNames (patterns : list string) : M World (list string) :=
  foldM matchPattern patterns [].

(** The body of the inner loop of [getSearchHTML]. *)
Definition addIfFound (preName : string) (connections : ConnectionList)
    (postName : string) : M World ConnectionList :=
  '(strength, found) ← onConnectivity (ConnectionStrength preName postName);
  if found : bool
  then mret (connections ++ [mkConnection preName postName strength])
  else mret connections.

(** The body of its outer loop: the range expression of the inner loop
    is evaluated once per turn. *)
Definition searchFrom (post : list string) (connections : ConnectionList)
    (preName : string) : M World ConnectionList :=
  postMatches ← MatchingNames post;
  foldM (addIfFound preName) postMatches connections.

(** [getSearchHTML] up to the sort: the connection list the page is
    rendered from.  The sort is under the test [len(connections) > 0] of
    the source; [getSearchHTML] below repeats that test on the sorted
    list, which has the length of the unsorted one, to choose the text. *)
Definition searchConnections (preNames postNames : string)
    : M World ConnectionList :=
  let pre := TrimSpace <$> Split preNames ","%char in
  let post := TrimSpace <$> Split postNames ","%char in
  preMatches ← MatchingNames pre;
  connections ← foldM (searchFrom post) preMatches [];
  if decide (Z.of_nat (length connections) > 0)
  then mret (SortByStrength connections)
  else mret connections.

Definition renderRow (connection : Connection) : string :=
  "<tr><td>" +:+ pretty (strength connection) +:+ "</td><td>" +:+
  pre connection +:+ "</td><td>" +:+ post connection +:+ "</td></tr>".

(** [func getSearchHTML(preNames, postNames string) (text string)] *)
Definition getSearchHTML (preNames postNames : string) : M World string :=
  connections ← searchConnections preNames postNames;
  if decide (Z.of_nat (length connections) > 0) then
    mret ("<h3>Connections in order of strength:</h3>
" +:+ "<p>Presynaptic cells in search: " +:+ preNames +:+ "<br />
" +:+ "Postsynaptic cells in search: " +:+ postNames +:+ "</p>
" +:+ "<table><tr><th># Synapses</th><th>Presynaptic cell</th><th>Postsynaptic cell</th></tr>
" +:+ fold_left (λ text connection, text +:+ renderRow connection) connections ""
    +:+ "</table>
")
  else mret "<p><strong>No connections found.</strong></p>".

End Search.
Arguments World {_}.
Arguments mkWorld {_} _ _.

(** ** Loading the connectivity matrix *)

(** [type CellList []string] *)
Abbreviation CellList := (list string).

(** One call of [csvReader.Read()] before [io.EOF]: a record, or a non-nil
    error (with whatever part of the record the reader hands back). *)
Inductive ReadResult : Type :=
  | ReadOk (items : list string)
  | ReadErr (items : list string) (err : string).

(** The local variables of [ReadConnectionsCSV] and the lines it logs. *)
Record Loader : Type := mkLoader {
  connects : NamedConnectome;
  bodyNum : Z;
  logged : list string
}.

Definition onConnects {A} : M NamedConnectome A → M Loader A :=
  zoom connects (λ nc st, mkLoader nc (bodyNum st) (logged st)).

(** [log.Println("Warning:", err)] *)
Definition logWarning (err : string) : M Loader unit :=
  λ st, Return (tt, mkLoader (connects st) (bodyNum st)
                      (logged st ++ ["Warning: " +:+ err])).

(** [bodyNum++] *)
Definition incrBodyNum : M Loader unit :=
  λ st, Return (tt, mkLoader (connects st) (int_add (bodyNum st) 1) (logged st)).

(** The last branch of the loop on one record: the row of the matrix
    for [names[bodyNum]]. *)
Definition readRow (names : CellList) (items : list string) : M Loader unit :=
  st ← get;
  preName ← lift (index names (bodyNum st));
  foldM (λ _ i,
      postName ← lift (index names i);
      item ← lift (index items i);
      match Atoi item with
      | None => fatal (CouldNotParse items)
      | Some strength =>
          if decide (strength > 0)
          then onConnects (AddConnection preName postName strength)
          else mret tt
      end)
    (seqZ 0 (Z.of_nat (length items))) tt.

(** One turn of the [for] loop of [ReadConnectionsCSV], for the result of
    its [csvReader.Read()]. *)
Definition readStep (names : CellList) (r : ReadResult) : M Loader unit :=
  match r with
  | ReadErr _ err =>
      _ ← logWarning err;
      incrBodyNum
  | ReadOk items =>
      item0 ← lift (index items 0);
      if decide (item0 = "") then
        mret tt                                   (* continue *)
      else if decide (Z.of_nat (length items) ≠ Z.of_nat (length names)) then
        fatal (InconsistentColumns (Z.of_nat (length items))
                                   (Z.of_nat (length names)))
      else
        _ ← readRow names items;
        incrBodyNum
  end.

(** The loop, over the results the reader yields before [io.EOF]. *)
Definition readLoop (names : CellList) (rows : list ReadResult) : M Loader unit :=
  foldM (λ _ r, readStep names r) rows tt.

Definition newLoader : Loader := mkLoader ∅ 0 [].

(** [func ReadConnectionsCSV(names CellList, filename string)
      (connects NamedConnectome)], once the file is open: [rows] is what
    the CSV reader makes of it.  The result pairs the connectome returned
    with the lines logged. *)
Definition ReadConnectionsCSV (names : CellList) (rows : list ReadResult)
    : outcome (NamedConnectome * list string) :=
  match readLoop names rows newLoader with
  | Return (_, st) => Return (connects st, logged st)
  | Panic e => Panic e
  | Fatal e => Fatal e
  end.

(** ** A run-time: iteration in key order of the map, merge sort *)

Definition mergeSortBy {A} (less : A → A → bool) (data : list A) : list A :=
  @merge_sort A (λ x y, less y x = false)
    (λ x y, bool_eq_dec (less y x) false) data.

#[export, refine] Instance defaultRuntime : GoRuntime := {|
  Seed := unit;
  rangeKeys V m s := ((map_to_list m).*1, s);
  sort_Sort A less data := mergeSortBy less data
|}.
Proof.
  - reflexivity.
  - intros. apply merge_sort_Permutation.
  - intros A less data Hswo. unfold ascending, mergeSortBy.
    apply @StronglySorted_merge_sort.
    + intros x y z Hyx Hzy. eapply (not_less_trans less Hswo); eauto.
    + intros x y.
      destruct (less y x) eqn:Hyx; [|by left].
      destruct (less x y) eqn:Hxy; [|by right].
      pose proof (less_trans less Hswo _ _ _ Hxy Hyx) as Hxx.
      rewrite (less_irrefl less Hswo) in Hxx. discriminate.
Defined.

Definition exampleNames : CellList := ["A"; "B"; "C"].
Definition exampleRows : list ReadResult :=
  [ReadOk ["0"; "5"; "0"]; ReadOk ["2"; "0"; "0"]; ReadOk ["0"; "0"; "0"]].
Definition exampleConnectome : NamedConnectome :=
  {[ "A" := {[ "B" := 5 ]}; "B" := {[ "A" := 2 ]} ]}.

(** ** The notions the properties are stated with *)

(** The strength stored for [(pre, post)], if an entry exists. *)
Definition entry (nc : NamedConnectome) (pre post : string) : option Z :=
  nc !! pre ≫= λ connections, connections !! post.

(** A pattern "ends in [*]" when it is some text followed by the byte
    [*]; such a pattern is not empty. *)
Definition endsInStar (pattern : string) : Prop :=
  ∃ prefix, pattern = prefix +:+ "*".

(** What it is for [name] to match [pattern] in the connectome [nc]. *)
Definition matchesPattern (nc : NamedConnectome) (pattern name : string) : Prop :=
  is_Some (nc !! name) ∧
  ((∃ prefix, pattern = prefix +:+ "*" ∧ ∃ rest, name = prefix +:+ rest) ∨
   (¬ endsInStar pattern ∧ name = pattern)).

(** A connection of the connectome [nc] between two of its presynaptic
    names. *)
Definition connectionOf (nc : NamedConnectome) (c : Connection) : Prop :=
  is_Some (nc !! pre c) ∧ is_Some (nc !! post c) ∧
  entry nc (pre c) (post c) = Some (strength c) ∧ strength c ≠ 0.

(** The strengths along the list never increase. *)
Definition descendingByStrength (connections : ConnectionList) : Prop :=
  ∀ i j ci cj, (i < j)%nat →
    connections !! i = Some ci → connections !! j = Some cj →
    (strength cj <= strength ci)%Z.

Definition exampleWorld : World := mkWorld exampleConnectome tt.

(** Every stored strength is strictly positive. *)
Definition positive (nc : NamedConnectome) : Prop :=
  ∀ pre post v, entry nc pre post = Some v → 0 < v.

(** Every presynaptic name stored is one of the first [n] names. *)
Definition keysBelow (names : CellList) (n : Z) (nc : NamedConnectome) : Prop :=
  ∀ pre, is_Some (nc !! pre) → ∃ k : nat, Z.of_nat k < n ∧ names !! k = Some pre.

(** ** The rest of the program's data: the [sort.Interface] methods and
    the name table *)

(** [func (list CellList) Len() int], and the same on [ConnectionList]. *)
Definition Len {A} (data : list A) : Z := Z.of_nat (length data).

(** [func (list CellList) Swap(i, j int)], and the same on
    [ConnectionList]: [list[i], list[j] = list[j], list[i]].  The slice
    is updated in place, so the result is the slice after the call.  With
    an index outside the slice the call panics, index out of range; which
    of the two bounds checks comes first is not fixed by the language, so
    the panic is [None], without the index it reports. *)
Definition Swap {A} (data : list A) (i j : Z) : option (list A) :=
  match index data i, index data j with
  | Return xi, Return xj =>
      Some (<[Z.to_nat j := xi]> (<[Z.to_nat i := xj]> data))
  | _, _ => None
  end.

(** [CellList.Less], on the two elements it compares:
    [list[i] > list[j]], the byte-wise order of Go strings. *)
Definition CellList_Less (a b : string) : bool := String.ltb b a.

(** What [ReadCellsCSV] ends in: the names, the [log.Fatalf] on a read
    error, or a panic. *)
Inductive NamesResult : Type :=
  | NamesRead (names : CellList)
  | NamesFatal (err : string)
  | NamesPanic (e : RuntimeError).

(** The loop of [ReadCellsCSV] over the results the reader yields before
    [io.EOF], [names] being the slice appended to. *)
Fixpoint readCells (rows : list ReadResult) (names : CellList) : NamesResult :=
  match rows with
  | [] => NamesRead names                                   (* break *)
  | ReadErr _ err :: _ => NamesFatal err
  | ReadOk items :: rows' =>
      match items !! 0%nat with
      | Some item0 =>
          if decide (item0 = "") then readCells rows' names   (* continue *)
          else readCells rows' (names ++ [item0])
      | None => NamesPanic (IndexOutOfRange 0 (Z.of_nat (length items)))
      end
  end.

(** [func ReadCellsCSV(filename string) (names CellList)], once the file
    is open. *)
Definition ReadCellsCSV (rows : list ReadResult) : NamesResult :=
  readCells rows [].

(** ** Further notions the properties are stated with *)

(** The first field of a record, when the record has one and it is not
    blank. *)
Definition nameOf (r : ReadResult) : option string :=
  match r with
  | ReadOk (item0 :: _) => if decide (item0 = "") then None else Some item0
  | _ => None
  end.

(** A record read without error whose first field is blank. *)
Definition isBlank (r : ReadResult) : bool :=
  match r with
  | ReadOk items => bool_decide (items !! 0%nat = Some "")
  | ReadErr _ _ => false
  end.

(** The line logged for a record, if any. *)
Definition warningOf (r : ReadResult) : option string :=
  match r with
  | ReadErr _ err => Some ("Warning: " +:+ err)
  | ReadOk _ => None
  end.

(** A row of the dense matrix for [names]: one field per name, at least
    one, each a decimal integer. *)
Definition matrixRow (names : CellList) (r : ReadResult) : Prop :=
  ∃ items, r = ReadOk items ∧ length items = length names ∧
    (0 < length items)%nat ∧ Forall (λ item, is_Some (Atoi item)) items.

(** The strength the field [items[c]] stands for: its value when it is
    positive. *)
Definition fieldStrength (items : list string) (c : nat) : option Z :=
  match items !! c with
  | Some item =>
      match Atoi item with
      | Some v => if decide (v > 0) then Some v else None
      | None => None
      end
  | None => None
  end.

(** The strength the matrix [rows] gives from row [r] to column [c]. *)
Definition cellStrength (rows : list ReadResult) (r c : nat) : option Z :=
  match rows !! r with
  | Some (ReadOk items) => fieldStrength items c
  | _ => None
  end.

(** The names a connectome speaks of are in the table. *)
Definition namesFrom (names : CellList) (nc : NamedConnectome) : Prop :=
  ∀ p q v, entry nc p q = Some v → p ∈ names ∧ q ∈ names.

(** ** The loader with the addition of [+=] as a parameter *)

(** [AddConnection] with [add] for the [+] of [+=]: with [int_add] it is
    [AddConnection] itself, with [Z.add] it forms the sums exactly. *)
Definition AddConnectionWith (add : Z → Z → Z) (pre post : string) (strength : Z)
    : M NamedConnectome unit :=
  nc ← get;
  _ ← (if decide (size nc = 0%nat) then put (∅ : NamedConnectome) else mret tt);
  nc ← get;
  match nc !! pre with
  | Some connections =>
      match connections !! post with
      | Some _ => assign2 pre post (add (index2 nc pre post) strength)
      | None => assign2 pre post strength
      end
  | None =>
      _ ← put (<[pre := nilMap]> nc);
      assign2 pre post strength
  end.

(** The body of the inner loop of [ReadConnectionsCSV], for column [i]. *)
Definition readFieldWith (add : Z → Z → Z) (names : CellList) (items : list string)
    (preName : string) (_ : unit) (i : Z) : M Loader unit :=
  postName ← lift (index names i);
  item ← lift (index items i);
  match Atoi item with
  | None => fatal (CouldNotParse items)
  | Some strength =>
      if decide (strength > 0)
      then onConnects (AddConnectionWith add preName postName strength)
      else mret tt
  end.

(** [readRow], [readStep], [readLoop] and [ReadConnectionsCSV] over
    [AddConnectionWith]. *)
Definition readRowWith (add : Z → Z → Z) (names : CellList) (items : list string)
    : M Loader unit :=
  st ← get;
  preName ← lift (index names (bodyNum st));
  foldM (readFieldWith add names items preName)
    (seqZ 0 (Z.of_nat (length items))) tt.

Definition readStepWith (add : Z → Z → Z) (names : CellList) (r : ReadResult)
    : M Loader unit :=
  match r with
  | ReadErr _ err =>
      _ ← logWarning err;
      incrBodyNum
  | ReadOk items =>
      item0 ← lift (index items 0);
      if decide (item0 = "") then
        mret tt
      else if decide (Z.of_nat (length items) ≠ Z.of_nat (length names)) then
        fatal (InconsistentColumns (Z.of_nat (length items))
                                   (Z.of_nat (length names)))
      else
        _ ← readRowWith add names items;
        incrBodyNum
  end.

Definition readLoopWith (add : Z → Z → Z) (names : CellList)
    (rows : list ReadResult) : M Loader unit :=
  foldM (λ _ r, readStepWith add names r) rows tt.

Definition ReadConnectionsCSVWith (add : Z → Z → Z) (names : CellList)
    (rows : list ReadResult) : outcome (NamedConnectome * list string) :=
  match readLoopWith add names rows newLoader with
  | Return (_, st) => Return (connects st, logged st)
  | Panic e => Panic e
  | Fatal e => Fatal e
  end.

(** No strength stored is beyond the largest [int]. *)
Definition withinInt (nc : NamedConnectome) : Prop :=
  ∀ pre post v, entry nc pre post = Some v → v ≤ int_max.

(** Every entry of [nc] is in [nc'], with at least its strength. *)
Definition grownTo (nc nc' : NamedConnectome) : Prop :=
  ∀ pre post v, entry nc pre post = Some v →
    ∃ v', entry nc' pre post = Some v' ∧ v ≤ v'.

(** * Properties *)

(** ** The functions on examples *)

Example Split_example : Split "A, B*,,C" ","%char = ["A"; " B*"; ""; "C"].
Proof. reflexivity. Qed.
Example Split_empty : Split "" ","%char = [""].
Proof. reflexivity. Qed.
Example TrimSpace_example : TrimSpace "  Mi1 *	" = "Mi1 *".
Proof. vm_compute. reflexivity. Qed.
Example Atoi_examples :
  Atoi "42" = Some 42 ∧ Atoi "-7" = Some (-7) ∧ Atoi "+0" = Some 0 ∧
  Atoi "" = None ∧ Atoi "-" = None ∧ Atoi " 1" = None ∧ Atoi "1x" = None ∧
  Atoi "9223372036854775807" = Some int_max ∧
  Atoi "9223372036854775808" = None ∧
  Atoi "-9223372036854775808" = Some int_min.
Proof. vm_compute. repeat split. Qed.

Example load_example :
  ReadConnectionsCSV exampleNames exampleRows = Return (exampleConnectome, []).
Proof. vm_compute. reflexivity. Qed.

Example search_example :
  searchConnections "A*, B" "*" (mkWorld exampleConnectome tt)
  = Return ([mkConnection "A" "B" 5; mkConnection "B" "A" 2],
            mkWorld exampleConnectome tt).
Proof. vm_compute. reflexivity. Qed.

(** ** Arithmetic on [int] *)

Lemma wrap_in_range z : in_range z → wrap z = z.
Proof.
  unfold in_range, wrap, int_min, int_max. intros Hz.
  rewrite Z.mod_small by lia. lia.
Qed.

Lemma wrap_range z : in_range (wrap z).
Proof.
  unfold in_range, wrap, int_min, int_max.
  pose proof (Z.mod_pos_bound (z + 2 ^ 63) (2 ^ 64)). lia.
Qed.

Lemma wrap_add_wrap_l x y : wrap (wrap x + y) = wrap (x + y).
Proof.
  unfold wrap. f_equal.
  replace ((x + 2 ^ 63) mod 2 ^ 64 - 2 ^ 63 + y + 2 ^ 63)
    with ((x + 2 ^ 63) mod 2 ^ 64 + y) by lia.
  rewrite Zplus_mod_idemp_l. f_equal. lia.
Qed.

Lemma int_add_assoc x a b : int_add (int_add x a) b = int_add x (int_add a b).
Proof.
  unfold int_add. rewrite wrap_add_wrap_l.
  rewrite (Z.add_comm x (wrap (a + b))), wrap_add_wrap_l. f_equal. lia.
Qed.

Lemma int_add_succ n : int_min ≤ n < int_max → int_add n 1 = n + 1.
Proof. intros Hn. apply wrap_in_range. unfold in_range. lia. Qed.

(** ** The monad *)

Lemma bind_Return {S A B} (m : M S A) (f : A → M S B) s a s' :
  m s = Return (a, s') → (m ≫= f) s = f a s'.
Proof. unfold mbind, M_bind. by intros ->. Qed.

Lemma bind_Panic {S A B} (m : M S A) (f : A → M S B) s e :
  m s = Panic e → (m ≫= f) s = Panic e.
Proof. unfold mbind, M_bind. by intros ->. Qed.

Lemma bind_Fatal {S A B} (m : M S A) (f : A → M S B) s e :
  m s = Fatal e → (m ≫= f) s = Fatal e.
Proof. unfold mbind, M_bind. by intros ->. Qed.

Lemma bind_inv {S A B} (m : M S A) (f : A → M S B) s b s'' :
  (m ≫= f) s = Return (b, s'') →
  ∃ a s', m s = Return (a, s') ∧ f a s' = Return (b, s'').
Proof.
  unfold mbind, M_bind. destruct (m s) as [[a s']| |]; [eauto|done..].
Qed.

Lemma foldM_app {S A B} (f : A → B → M S A) l1 l2 a s :
  foldM f (l1 ++ l2) a s = (foldM f l1 a ≫= foldM f l2) s.
Proof.
  revert a s. induction l1 as [|x l1 IH]; intros a s; [done|].
  simpl. unfold mbind, M_bind in *.
  destruct (f a x s) as [[a' s']| |]; [apply IH|done..].
Qed.

Ltac unfold_M :=
  unfold mbind, M_bind, mret, M_ret, get, put, panic, fatal, lift, zoom in *.

(** ** [ConnectionStrength] and [AddConnection] *)

Lemma index2_entry nc pre post : index2 nc pre post = default 0 (entry nc pre post).
Proof. unfold index2, entry. by destruct (nc !! pre). Qed.

Lemma ConnectionStrength_eq nc pre post :
  ConnectionStrength pre post nc
  = Return (match entry nc pre post with
            | Some v => if decide (v = 0) then (v, false) else (v, true)
            | None => (0, false)
            end, nc).
Proof.
  unfold ConnectionStrength. unfold_M. rewrite index2_entry. unfold entry.
  destruct (nc !! pre) as [connections|]; simpl; [|done].
  destruct (connections !! post) as [v|]; simpl; [|done].
  by destruct (decide (v = 0)).
Qed.

(** C6: [ConnectionStrength] returns normally and leaves the connectome
    as it was; [found] is [false] when the pair has no entry and when its
    entry is [0]; when [found] is [true] the strength returned is the
    stored one. *)
Theorem ConnectionStrength_found nc pre post :
  ∃ strength found,
    ConnectionStrength pre post nc = Return ((strength, found), nc) ∧
    (entry nc pre post = None → found = false) ∧
    (entry nc pre post = Some 0 → found = false) ∧
    (found = true → entry nc pre post = Some strength ∧ strength ≠ 0).
Proof.
  rewrite ConnectionStrength_eq.
  destruct (entry nc pre post) as [v|] eqn:Hentry.
  - destruct (decide (v = 0)) as [->|Hv].
    + exists 0, false. repeat split; done.
    + exists v, true. repeat split; try done. intros [=]. done.
  - exists 0, false. repeat split; done.
Qed.

(** What one call of [AddConnection] leaves in the connectome. *)
Lemma AddConnection_eq nc pre post strength :
  AddConnection pre post strength nc
  = Return (tt, <[pre := <[post := match entry nc pre post with
                                   | Some v => int_add v strength
                                   | None => strength
                                   end]> (default ∅ (nc !! pre))]> nc).
Proof.
  unfold AddConnection, assign2. unfold_M.
  destruct (decide (size nc = 0%nat)) as [Hsize|Hsize]; simpl.
  - apply map_size_empty_iff in Hsize as ->.
    unfold entry. rewrite lookup_empty. simpl. rewrite lookup_insert_eq.
    by rewrite insert_insert_eq.
  - rewrite index2_entry. unfold entry.
    destruct (nc !! pre) as [connections|] eqn:Hpre; simpl.
    + destruct (connections !! post) as [v|] eqn:Hpost; simpl;
        by rewrite Hpre.
    + rewrite lookup_insert_eq. by rewrite insert_insert_eq.
Qed.

Lemma entry_insert nc pre post connections v pre' post' :
  entry (<[pre := <[post := v]> connections]> nc) pre' post'
  = if decide (pre = pre') then
      if decide (post = post') then Some v else connections !! post'
    else entry nc pre' post'.
Proof.
  unfold entry. rewrite lookup_insert. destruct (decide (pre = pre')); [|done].
  simpl. rewrite lookup_insert. by destruct (decide (post = post')).
Qed.

Lemma entry_AddConnection nc nc' pre post strength pre' post' :
  AddConnection pre post strength nc = Return (tt, nc') →
  entry nc' pre' post'
  = if decide (pre = pre' ∧ post = post') then
      Some (match entry nc pre post with
            | Some v => int_add v strength
            | None => strength
            end)
    else entry nc pre' post'.
Proof.
  rewrite AddConnection_eq. intros [= <-]. rewrite entry_insert.
  destruct (decide (pre = pre')) as [<-|]; [|by rewrite decide_False by tauto].
  destruct (decide (post = post')) as [<-|].
  - by rewrite decide_True.
  - rewrite decide_False by tauto. unfold entry. by destruct (nc !! pre).
Qed.

(** C7: adding [a] and then [b] to a pair leaves the connectome that
    adding [a + b] once leaves; the pair then holds its former strength
    plus [a] plus [b] (or [a + b] when it had none), and every other entry
    is the one of the initial connectome. *)
Theorem AddConnection_additive nc pre post a b :
  ∃ nc1 nc2,
    AddConnection pre post a nc = Return (tt, nc1) ∧
    AddConnection pre post b nc1 = Return (tt, nc2) ∧
    AddConnection pre post (int_add a b) nc = Return (tt, nc2) ∧
    entry nc2 pre post
      = Some (match entry nc pre post with
              | Some v => int_add (int_add v a) b
              | None => int_add a b
              end) ∧
    ∀ pre' post', (pre', post') ≠ (pre, post) →
      entry nc2 pre' post' = entry nc pre' post'.
Proof.
  destruct (AddConnection pre post a nc) as [[[] nc1]| |] eqn:H1;
    [|by rewrite AddConnection_eq in H1..].
  destruct (AddConnection pre post b nc1) as [[[] nc2]| |] eqn:H2;
    [|by rewrite AddConnection_eq in H2..].
  exists nc1, nc2.
  assert (entry nc1 pre post
          = Some (match entry nc pre post with
                  | Some v => int_add v a
                  | None => a
                  end)) as Hentry1.
  { rewrite (entry_AddConnection _ _ _ _ _ _ _ H1). by rewrite decide_True. }
  assert (entry nc2 pre post
          = Some (match entry nc pre post with
                  | Some v => int_add (int_add v a) b
                  | None => int_add a b
                  end)) as Hentry2.
  { rewrite (entry_AddConnection _ _ _ _ _ _ _ H2), decide_True by done.
    rewrite Hentry1. by destruct (entry nc pre post). }
  split_and!; try done.
  - rewrite AddConnection_eq in *. simplify_eq. f_equal. f_equal.
    rewrite lookup_insert_eq. simpl. rewrite insert_insert_eq.
    rewrite Hentry1. f_equal. rewrite insert_insert_eq. f_equal.
    destruct (entry nc pre post); [by rewrite int_add_assoc|done].
  - intros pre' post' Hne.
    assert (¬ (pre = pre' ∧ post = post')) as Hne' by (intros [-> ->]; done).
    rewrite (entry_AddConnection _ _ _ _ _ pre' post' H2), decide_False by done.
    by rewrite (entry_AddConnection _ _ _ _ _ pre' post' H1), decide_False.
Qed.

(** ** Strings *)

Lemma string_length_app (s t : string) :
  String.length (s +:+ t) = (String.length s + String.length t)%nat.
Proof. induction s as [|c s IH]; simpl; [done|by rewrite IH]. Qed.

Lemma string_take_app (s t : string) : take (String.length s) (s +:+ t) = s.
Proof. induction s as [|c s IH]; simpl; [by destruct t|by rewrite IH]. Qed.

Lemma string_drop_app (s t : string) : drop (String.length s) (s +:+ t) = t.
Proof. induction s as [|c s IH]; simpl; [by destruct t|done]. Qed.

Lemma string_take_drop (n : nat) (s : string) : take n s +:+ drop n s = s.
Proof.
  revert s. induction n as [|n IH]; intros [|c s]; simpl; try done.
  change (String c (take n s +:+ drop n s) = String c s). by rewrite IH.
Qed.

Lemma string_length_take (n : nat) (s : string) :
  (n ≤ String.length s)%nat → String.length (take n s) = n.
Proof.
  revert s. induction n as [|n IH]; intros [|c s]; simpl; try lia.
  intros Hn. rewrite IH; lia.
Qed.

(** [strings.HasPrefix] is "[prefix] is a prefix of [s]". *)
Lemma HasPrefix_spec (s prefix : string) :
  HasPrefix s prefix = true ↔ ∃ rest, s = prefix +:+ rest.
Proof.
  unfold HasPrefix, len. rewrite andb_true_iff, !bool_decide_eq_true. split.
  - intros [_ Htake]. exists (drop (String.length prefix) s).
    rewrite <-Htake at 1. by rewrite string_take_drop.
  - intros [rest ->]. rewrite string_length_app, string_take_app. split; [lia|done].
Qed.

Lemma HasPrefix_empty (s : string) : HasPrefix s "" = true.
Proof. apply HasPrefix_spec. by exists s. Qed.

Lemma last_byte_star (prefix : string) :
  sliceFrom (prefix +:+ "*") (len (prefix +:+ "*") - 1) = Return "*" ∧
  sliceTo (prefix +:+ "*") (len (prefix +:+ "*") - 1) = Return prefix.
Proof.
  unfold sliceFrom, sliceTo, len. rewrite string_length_app. simpl.
  replace (Z.of_nat (String.length prefix + 1) - 1)
    with (Z.of_nat (String.length prefix)) by lia.
  rewrite !decide_True by lia. rewrite Nat2Z.id.
  by rewrite string_drop_app, string_take_app.
Qed.

Lemma last_byte_other (pattern : string) :
  pattern ≠ "" → ¬ endsInStar pattern →
  ∃ last, sliceFrom pattern (len pattern - 1) = Return last ∧ last ≠ "*".
Proof.
  intros Hne Hstar. unfold sliceFrom, len.
  assert (String.length pattern ≠ 0%nat) by (by destruct pattern).
  rewrite decide_True by lia. eexists; split; [done|].
  intros Hlast. apply Hstar.
  exists (take (Z.to_nat (Z.of_nat (String.length pattern) - 1)) pattern).
  rewrite <-Hlast. by rewrite string_take_drop.
Qed.

Lemma last_byte_empty : sliceFrom "" (len "" - 1) = Panic (SliceBoundsOutOfRange (-1) 0).
Proof. reflexivity. Qed.

Lemma TrimSpace_empty : TrimSpace "" = "".
Proof. reflexivity. Qed.

Lemma endsInStar_inj (p1 p2 : string) : p1 +:+ "*" = p2 +:+ "*" → p1 = p2.
Proof.
  intros Heq.
  assert (String.length p1 = String.length p2) as Hlen.
  { apply (f_equal String.length) in Heq. rewrite !string_length_app in Heq.
    simpl in Heq. lia. }
  rewrite <-(string_take_app p1 "*"), Heq, Hlen. apply string_take_app.
Qed.

Lemma endsInStar_nonempty (pattern : string) : endsInStar pattern → pattern ≠ "".
Proof. intros [[|c prefix] ->]; discriminate. Qed.

Lemma endsInStar_dec (pattern : string) : endsInStar pattern ∨ ¬ endsInStar pattern.
Proof.
  destruct (decide (drop (String.length pattern - 1) pattern = "*")) as [Hlast|Hlast].
  - left. exists (take (String.length pattern - 1) pattern).
    rewrite <-Hlast. by rewrite string_take_drop.
  - right. intros [prefix ->]. apply Hlast.
    rewrite string_length_app. simpl.
    replace (String.length prefix + 1 - 1)%nat with (String.length prefix) by lia.
    apply string_drop_app.
Qed.

(** ** [MatchingNames] *)

Lemma fold_left_append_if {A} (P : A → bool) (l acc : list A) :
  fold_left (λ acc x, if P x then acc ++ [x] else acc) l acc
  = acc ++ filter (λ x, P x = true) l.
Proof.
  revert acc. induction l as [|x l IH]; intros acc; simpl.
  - by rewrite app_nil_r.
  - rewrite IH, filter_cons. destruct (P x) eqn:HP.
    + rewrite decide_True by done. by rewrite <-app_assoc.
    + rewrite decide_False by done. done.
Qed.

Lemma elem_of_keys {V} (m : gmap string V) (name : string) :
  name ∈ (map_to_list m).*1 ↔ is_Some (m !! name).
Proof.
  rewrite list_elem_of_fmap. split.
  - intros [[k v] [-> Hkv]]. apply elem_of_map_to_list in Hkv. by exists v.
  - intros [v Hv]. exists (name, v). split; [done|].
    by apply elem_of_map_to_list.
Qed.

Section MatchingNamesProperties.
Context `{GoRuntime}.

Lemma rangeKeys_NoDup {V} (m : gmap string V) s : NoDup (rangeKeys m s).1.
Proof. rewrite rangeKeys_keys. apply NoDup_fst_map_to_list. Qed.

Lemma elem_of_rangeKeys {V} (m : gmap string V) s name :
  name ∈ (rangeKeys m s).1 ↔ is_Some (m !! name).
Proof. rewrite rangeKeys_keys. apply elem_of_keys. Qed.

Lemma matchPattern_empty matches w :
  matchPattern matches "" w = Panic (SliceBoundsOutOfRange (-1) 0).
Proof. reflexivity. Qed.

Lemma matchPattern_star matches prefix w :
  matchPattern matches (prefix +:+ "*") w
  = Return (matches ++ filter (λ name, HasPrefix name prefix = true)
                         (rangeKeys (connectivity w) (seed w)).1,
            mkWorld (connectivity w) (rangeKeys (connectivity w) (seed w)).2).
Proof.
  unfold matchPattern.
  destruct (last_byte_star prefix) as [Hfrom Hto].
  erewrite bind_Return; [|unfold lift; by rewrite Hfrom].
  rewrite decide_True by done.
  erewrite bind_Return; [|unfold lift; by rewrite Hto].
  unfold rangeNames. unfold_M.
  destruct (rangeKeys (connectivity w) (seed w)) as [names s]. simpl.
  by rewrite fold_left_append_if.
Qed.

Lemma matchPattern_exact matches pattern w :
  pattern ≠ "" → ¬ endsInStar pattern →
  matchPattern matches pattern w
  = Return (matches ++ (if decide (is_Some (connectivity w !! pattern))
                        then [pattern] else []), w).
Proof.
  intros Hne Hstar. unfold matchPattern.
  destruct (last_byte_other pattern Hne Hstar) as (last & Hfrom & Hlast).
  erewrite bind_Return; [|unfold lift; by rewrite Hfrom].
  rewrite decide_False by done.
  unfold onConnectivity. unfold_M. destruct w as [nc s]. simpl.
  destruct (nc !! pattern) as [connections|].
  - by rewrite decide_True.
  - rewrite decide_False by (by intros [??]). by rewrite app_nil_r.
Qed.

(** One non-empty pattern contributes exactly the names matching it,
    each once, and leaves the connectome alone. *)
Lemma matchPattern_Return matches pattern w :
  pattern ≠ "" →
  ∃ found w',
    matchPattern matches pattern w = Return (matches ++ found, w') ∧
    connectivity w' = connectivity w ∧
    NoDup found ∧
    ∀ name, name ∈ found ↔ matchesPattern (connectivity w) pattern name.
Proof.
  intros Hne. destruct (endsInStar_dec pattern) as [[prefix ->]|Hstar].
  - rewrite matchPattern_star. eexists _, _. split_and!; [done|done|..].
    + apply NoDup_filter, rangeKeys_NoDup.
    + intros name. rewrite list_elem_of_filter, elem_of_rangeKeys, HasPrefix_spec.
      unfold matchesPattern. split.
      * intros [Hrest Hname]. split; [done|]. left. by exists prefix.
      * intros [Hname [(prefix' & Heq & Hrest)|[[] _]]]; [|by exists prefix].
        apply endsInStar_inj in Heq as ->. done.
  - rewrite matchPattern_exact by done. eexists _, _. split_and!; [done|done|..].
    + case_decide; [apply NoDup_singleton|apply NoDup_nil_2].
    + intros name. unfold matchesPattern. case_decide as Hkey.
      * rewrite list_elem_of_singleton. split.
        -- intros ->. split; [done|]. by right.
        -- intros [_ [(prefix & -> & _)|[_ ->]]]; [|done].
           destruct Hstar. by exists prefix.
      * split; [by intros ?%elem_of_nil|].
        intros [Hname [(prefix & -> & _)|[_ ->]]]; [|done].
        destruct Hstar. by exists prefix.
Qed.

Lemma foldM_matchPattern_Return patterns matches w :
  Forall (λ pattern, pattern ≠ "") patterns →
  ∃ found w',
    foldM matchPattern patterns matches w = Return (matches ++ found, w') ∧
    connectivity w' = connectivity w ∧
    ∀ name, name ∈ found ↔
      ∃ pattern, pattern ∈ patterns ∧ matchesPattern (connectivity w) pattern name.
Proof.
  intros Hne. revert matches w.
  induction Hne as [|pattern patterns Hpattern _ IH]; intros matches w; simpl.
  - exists [], w. rewrite app_nil_r. split_and!; [done|done|].
    intros name. split; [by intros ?%elem_of_nil|].
    by intros (? & ?%elem_of_nil & _).
  - destruct (matchPattern_Return matches pattern w Hpattern)
      as (found1 & w1 & Hstep & Hnc1 & _ & Hfound1).
    erewrite bind_Return by exact Hstep.
    destruct (IH (matches ++ found1) w1) as (found2 & w2 & Hrest & Hnc2 & Hfound2).
    exists (found1 ++ found2), w2. rewrite Hrest, <-app_assoc.
    split_and!; [done|congruence|].
    intros name. rewrite elem_of_app, Hfound1, Hfound2, Hnc1. split.
    + intros [Hm|(pattern' & Hin & Hm)].
      * exists pattern. split; [apply list_elem_of_here|done].
      * exists pattern'. split; [by apply list_elem_of_further|done].
    + intros (pattern' & Hin & Hm). apply elem_of_cons in Hin as [->|Hin].
      * by left.
      * right. by exists pattern'.
Qed.

Lemma foldM_matchPattern_Panic patterns matches w :
  "" ∈ patterns →
  foldM matchPattern patterns matches w = Panic (SliceBoundsOutOfRange (-1) 0).
Proof.
  revert matches w. induction patterns as [|pattern patterns IH];
    intros matches w Hin; [by apply elem_of_nil in Hin|].
  simpl. destruct (decide (pattern = "")) as [->|Hne].
  - by erewrite bind_Panic by apply matchPattern_empty.
  - apply elem_of_cons in Hin as [?|Hin]; [done|].
    destruct (matchPattern_Return matches pattern w Hne)
      as (found & w' & Hstep & _).
    erewrite bind_Return by exact Hstep. by apply IH.
Qed.

(** [MatchingNames] returns exactly when no pattern is empty, and then
    it returns the names matching some pattern. *)
Lemma MatchingNames_Return patterns w :
  Forall (λ pattern, pattern ≠ "") patterns →
  ∃ matches w',
    MatchingNames patterns w = Return (matches, w') ∧
    connectivity w' = connectivity w ∧
    ∀ name, name ∈ matches ↔
      ∃ pattern, pattern ∈ patterns ∧ matchesPattern (connectivity w) pattern name.
Proof. apply (foldM_matchPattern_Return patterns []). Qed.

Lemma MatchingNames_Panic patterns w :
  "" ∈ patterns →
  MatchingNames patterns w = Panic (SliceBoundsOutOfRange (-1) 0).
Proof. apply foldM_matchPattern_Panic. Qed.

Lemma MatchingNames_inv patterns w matches w' :
  MatchingNames patterns w = Return (matches, w') →
  connectivity w' = connectivity w ∧
  ∀ name, name ∈ matches ↔
    ∃ pattern, pattern ∈ patterns ∧ matchesPattern (connectivity w) pattern name.
Proof.
  intros Hret.
  destruct (decide ("" ∈ patterns)) as [Hin|Hin].
  { by rewrite MatchingNames_Panic in Hret. }
  destruct (MatchingNames_Return patterns w) as (matches0 & w0 & Heq & Hnc & Hm).
  { apply Forall_forall. intros pattern Hp ->. done. }
  rewrite Heq in Hret. by simplify_eq.
Qed.

End MatchingNamesProperties.

(** ** Loops *)

(** An invariant of the loop body is an invariant of the loop. *)
Lemma foldM_invariant {S A B} (f : A → B → M S A) (I : A → S → Prop) l a s a' s' :
  (∀ a x s a' s', x ∈ l → I a s → f a x s = Return (a', s') → I a' s') →
  I a s → foldM f l a s = Return (a', s') → I a' s'.
Proof.
  revert a s. induction l as [|x l IH]; intros a s Hstep Ha Hret; simpl in Hret.
  - unfold_M. by simplify_eq.
  - apply bind_inv in Hret as (a1 & s1 & Hx & Hret).
    eapply IH; [|
      eapply Hstep; [apply list_elem_of_here|exact Ha|exact Hx] |exact Hret].
    intros ???????. eapply Hstep; [by apply list_elem_of_further|done..].
Qed.

(** A loop whose body always returns, returns. *)
Lemma foldM_Return {S A B} (f : A → B → M S A) l a s :
  (∀ a x s, x ∈ l → ∃ a' s', f a x s = Return (a', s')) →
  ∃ a' s', foldM f l a s = Return (a', s').
Proof.
  revert a s. induction l as [|x l IH]; intros a s Hstep; simpl.
  - by exists a, s.
  - destruct (Hstep a x s) as (a1 & s1 & Hx); [apply list_elem_of_here|].
    erewrite bind_Return by exact Hx. apply IH.
    intros ????. apply Hstep. by apply list_elem_of_further.
Qed.

Lemma StronglySorted_lookup {A} (R : relation A) (l : list A) i j x y :
  StronglySorted R l → (i < j)%nat → l !! i = Some x → l !! j = Some y → R x y.
Proof.
  intros Hsorted. revert i j.
  induction Hsorted as [|z l _ IH Hz]; intros i j Hij Hi Hj; [done|].
  destruct j as [|j]; [lia|]. simpl in Hj. destruct i as [|i]; simpl in Hi.
  - simplify_eq. eapply Forall_forall; [exact Hz|].
    by eapply list_elem_of_lookup_2.
  - eapply (IH i j); [lia|done..].
Qed.

(** ** The search *)

Lemma ConnectionList_Less_swo : StrictWeakOrder ConnectionList_Less.
Proof.
  unfold ConnectionList_Less. split.
  - intros x. apply bool_decide_eq_false. lia.
  - intros x y z. rewrite !bool_decide_eq_true. lia.
  - intros x y z. rewrite !bool_decide_eq_false. lia.
Qed.

Section SearchProperties.
Context `{GoRuntime}.

Lemma addIfFound_eq preName connections postName w :
  addIfFound preName connections postName w
  = Return (connections ++
              match entry (connectivity w) preName postName with
              | Some v => if decide (v = 0) then []
                          else [mkConnection preName postName v]
              | None => []
              end, w).
Proof.
  unfold addIfFound, onConnectivity. destruct w as [nc s]. unfold_M. simpl.
  rewrite ConnectionStrength_eq.
  destruct (entry nc preName postName) as [v|]; simpl.
  - destruct (decide (v = 0)); simpl; by rewrite ?app_nil_r.
  - by rewrite app_nil_r.
Qed.

Lemma searchFrom_Return post connections preName w :
  Forall (λ pattern, pattern ≠ "") post →
  ∃ connections' w', searchFrom post connections preName w = Return (connections', w').
Proof.
  intros Hpost. unfold searchFrom.
  destruct (MatchingNames_Return post w Hpost) as (postMatches & w1 & Hm & _).
  erewrite bind_Return by exact Hm. apply foldM_Return.
  intros ? ? ? _. rewrite addIfFound_eq. eauto.
Qed.

Lemma searchFrom_invariant nc post connections preName w connections' w' :
  is_Some (nc !! preName) →
  connectivity w = nc ∧ Forall (connectionOf nc) connections →
  searchFrom post connections preName w = Return (connections', w') →
  connectivity w' = nc ∧ Forall (connectionOf nc) connections'.
Proof.
  intros Hpre [Hnc Hconnections] Hret. unfold searchFrom in Hret.
  apply bind_inv in Hret as (postMatches & w1 & Hm & Hret).
  apply MatchingNames_inv in Hm as [Hnc1 Hm]. rewrite Hnc in *.
  revert Hret.
  apply (foldM_invariant (addIfFound preName)
           (λ connections w, connectivity w = nc ∧
                             Forall (connectionOf nc) connections));
    [|done].
  intros cs postName w2 cs' w2' Hin [Hnc2 Hcs]. rewrite addIfFound_eq, Hnc2.
  intros [= <- <-]. split; [done|]. apply Forall_app. split; [done|].
  destruct (entry nc preName postName) as [v|] eqn:Hentry; [|done].
  destruct (decide (v = 0)); [done|]. apply Forall_singleton.
  apply Hm in Hin as (_ & _ & [Hpost _]). by split_and!.
Qed.

(** The list a search returns: a sorted arrangement of connections of
    the connectome, which the search has not changed. *)
Lemma searchConnections_inv preNames postNames w connections w' :
  searchConnections preNames postNames w = Return (connections, w') →
  connectivity w' = connectivity w ∧
  Forall (connectionOf (connectivity w)) connections ∧
  ascending ConnectionList_Less connections.
Proof.
  unfold searchConnections. intros Hret.
  apply bind_inv in Hret as (preMatches & w1 & Hm & Hret).
  apply MatchingNames_inv in Hm as [Hnc1 Hm].
  apply bind_inv in Hret as (unsorted & w2 & Hloop & Hret).
  assert (connectivity w2 = connectivity w ∧
          Forall (connectionOf (connectivity w)) unsorted) as [Hnc2 Hunsorted].
  { revert Hloop.
    apply (foldM_invariant _
             (λ connections w0, connectivity w0 = connectivity w ∧
                Forall (connectionOf (connectivity w)) connections));
      [|done].
    intros cs preName w3 cs' w3' Hin Hinv.
    apply searchFrom_invariant; [|done].
    by apply Hm in Hin as (_ & _ & [Hpre _]). }
  unfold_M. case_decide as Hlen; simplify_eq; split_and!; try done.
  - unfold SortByStrength. by rewrite sort_Sort_perm.
  - apply sort_Sort_ascending, ConnectionList_Less_swo.
  - destruct connections; [constructor|simpl in Hlen; lia].
Qed.

(** Unless a pattern is empty, the search returns. *)
Lemma searchConnections_Return preNames postNames w :
  Forall (λ pattern, pattern ≠ "") (TrimSpace <$> Split preNames ","%char) →
  Forall (λ pattern, pattern ≠ "") (TrimSpace <$> Split postNames ","%char) →
  ∃ connections w', searchConnections preNames postNames w = Return (connections, w').
Proof.
  intros Hpre Hpost. unfold searchConnections.
  destruct (MatchingNames_Return _ w Hpre) as (preMatches & w1 & Hm & _).
  erewrite bind_Return by exact Hm.
  destruct (foldM_Return (searchFrom (TrimSpace <$> Split postNames ","%char))
              preMatches [] w1) as (unsorted & w2 & Hloop).
  { intros ? ? ? _. by apply searchFrom_Return. }
  erewrite bind_Return by exact Hloop. unfold_M. case_decide; eauto.
Qed.

End SearchProperties.

Lemma endsInStar_iff (pattern : string) :
  endsInStar pattern ↔ drop (String.length pattern - 1) pattern = "*".
Proof.
  split.
  - intros [prefix ->]. rewrite string_length_app. simpl.
    replace (String.length prefix + 1 - 1)%nat with (String.length prefix) by lia.
    apply string_drop_app.
  - intros Hlast. exists (take (String.length pattern - 1) pattern).
    rewrite <-Hlast. by rewrite string_take_drop.
Qed.

(** C1, at the input on which it fails: a search whose source field is
    empty panics in [MatchingNames] on the slice [pattern[len(pattern)-1:]],
    whatever the connectome, the target patterns and the run-time; and so
    does the page built from it. *)
Theorem search_empty_source_panics `{GoRuntime} (w : World) (postNames : string) :
  MatchingNames [""] w = Panic (SliceBoundsOutOfRange (-1) 0) ∧
  searchConnections "" postNames w = Panic (SliceBoundsOutOfRange (-1) 0) ∧
  getSearchHTML "" postNames w = Panic (SliceBoundsOutOfRange (-1) 0).
Proof.
  assert (searchConnections "" postNames w = Panic (SliceBoundsOutOfRange (-1) 0))
    as Hsearch.
  { unfold searchConnections. apply bind_Panic.
    apply MatchingNames_Panic. simpl. rewrite TrimSpace_empty.
    apply list_elem_of_here. }
  split_and!; [done|done|].
  unfold getSearchHTML. by apply bind_Panic.
Qed.

(** An empty item among the source patterns is enough. *)
Lemma search_empty_pattern_panics `{GoRuntime} (w : World) (preNames postNames : string) :
  "" ∈ (TrimSpace <$> Split preNames ","%char) →
  searchConnections preNames postNames w = Panic (SliceBoundsOutOfRange (-1) 0).
Proof.
  intros Hin. unfold searchConnections. apply bind_Panic.
  by apply MatchingNames_Panic.
Qed.

(** An empty target pattern is reached only when some source name
    matched. *)
Example search_empty_target :
  searchConnections "A" "" exampleWorld = Panic (SliceBoundsOutOfRange (-1) 0) ∧
  searchConnections "A, " "B" exampleWorld = Panic (SliceBoundsOutOfRange (-1) 0) ∧
  searchConnections "Z" "" exampleWorld = Return ([], exampleWorld).
Proof. vm_compute. done. Qed.

(** C3: for a pattern [prefix*], [MatchingNames] returns, each once, the
    keys of the connectome that [prefix] is a prefix of, and nothing else;
    for the pattern [*] these are all the keys. *)
Theorem MatchingNames_prefix `{GoRuntime} (w : World) (prefix : string) :
  (∃ matches w',
     MatchingNames [prefix +:+ "*"] w = Return (matches, w') ∧
     connectivity w' = connectivity w ∧
     NoDup matches ∧
     ∀ name, name ∈ matches ↔
       is_Some (connectivity w !! name) ∧ ∃ rest, name = prefix +:+ rest) ∧
  (∃ matches w',
     MatchingNames ["*"] w = Return (matches, w') ∧
     NoDup matches ∧
     ∀ name, name ∈ matches ↔ is_Some (connectivity w !! name)).
Proof.
  assert (∀ prefix, ∃ matches w',
     MatchingNames [prefix +:+ "*"] w = Return (matches, w') ∧
     connectivity w' = connectivity w ∧
     NoDup matches ∧
     ∀ name, name ∈ matches ↔
       is_Some (connectivity w !! name) ∧ ∃ rest, name = prefix +:+ rest) as Hprefix.
  { intros p. unfold MatchingNames. simpl.
    erewrite bind_Return by apply matchPattern_star. simpl.
    eexists _, _. split_and!; [done|done|..].
    - apply NoDup_filter, rangeKeys_NoDup.
    - intros name.
      rewrite list_elem_of_filter, elem_of_rangeKeys, HasPrefix_spec. tauto. }
  split; [apply Hprefix|].
  destruct (Hprefix "") as (matches & w' & Hret & _ & Hnodup & Hmatches).
  exists matches, w'. split_and!; [done|done|].
  intros name. rewrite Hmatches. split; [tauto|].
  intros Hname. split; [done|]. by exists name.
Qed.

(** C4: a non-empty pattern that does not end in [*] is matched exactly
    when it is a key of the connectome, as itself; whatever the patterns,
    every name matched is a key of the connectome, so a name that only
    occurs as a target is on neither side of a connection found. *)
Theorem MatchingNames_exact `{GoRuntime} (w : World) (pattern : string) :
  pattern ≠ "" → ¬ endsInStar pattern →
  MatchingNames [pattern] w
    = Return (if decide (is_Some (connectivity w !! pattern))
              then [pattern] else [], w) ∧
  (∀ patterns matches w' name,
     MatchingNames patterns w = Return (matches, w') →
     name ∈ matches → is_Some (connectivity w !! name)) ∧
  (∀ preNames postNames connections w' c,
     searchConnections preNames postNames w = Return (connections, w') →
     c ∈ connections →
     is_Some (connectivity w !! pre c) ∧ is_Some (connectivity w !! post c)).
Proof.
  intros Hne Hstar. split_and!.
  - unfold MatchingNames. simpl.
    by erewrite bind_Return by (by apply matchPattern_exact).
  - intros patterns matches w' name Hret Hin.
    apply MatchingNames_inv in Hret as [_ Hm].
    by apply Hm in Hin as (_ & _ & [Hname _]).
  - intros preNames postNames connections w' c Hret Hin.
    apply searchConnections_inv in Hret as (_ & Hall & _).
    rewrite Forall_forall in Hall. by destruct (Hall c Hin) as (? & ? & _).
Qed.

Lemma MatchingNames_exact_witness :
  MatchingNames ["A"] exampleWorld
    = Return (if decide (is_Some (connectivity exampleWorld !! "A"))
              then ["A"] else [], exampleWorld) ∧
  (∀ patterns matches w' name,
     MatchingNames patterns exampleWorld = Return (matches, w') →
     name ∈ matches → is_Some (connectivity exampleWorld !! name)) ∧
  (∀ preNames postNames connections w' c,
     searchConnections preNames postNames exampleWorld = Return (connections, w') →
     c ∈ connections →
     is_Some (connectivity exampleWorld !! pre c) ∧
     is_Some (connectivity exampleWorld !! post c)).
Proof.
  apply (MatchingNames_exact exampleWorld "A").
  - discriminate.
  - intros Hstar%endsInStar_iff. vm_compute in Hstar. discriminate.
Defined.

(** C5: the connections a search returns are in descending order of
    strength. *)
Theorem searchConnections_sorted `{GoRuntime} (w : World)
    (preNames postNames : string) (connections : ConnectionList) (w' : World) :
  searchConnections preNames postNames w = Return (connections, w') →
  descendingByStrength connections.
Proof.
  intros Hret. apply searchConnections_inv in Hret as (_ & _ & Hsorted).
  intros i j ci cj Hij Hi Hj.
  pose proof (StronglySorted_lookup _ _ _ _ _ _ Hsorted Hij Hi Hj) as Hless.
  unfold ConnectionList_Less in Hless. apply bool_decide_eq_false in Hless. lia.
Qed.

Lemma searchConnections_sorted_witness :
  descendingByStrength [mkConnection "A" "B" 5; mkConnection "B" "A" 2].
Proof.
  apply (searchConnections_sorted exampleWorld "A*, B" "*" _ exampleWorld).
  vm_compute. reflexivity.
Defined.

(** ** The loader: one record at a time *)

Lemma readLoop_app names rows1 rows2 st :
  readLoop names (rows1 ++ rows2) st
  = (readLoop names rows1 ≫= λ _, readLoop names rows2) st.
Proof.
  unfold readLoop. rewrite foldM_app. unfold mbind, M_bind.
  by destruct (foldM _ rows1 () st) as [[[] st']| |].
Qed.

Lemma readLoop_cons names r rows st :
  readLoop names (r :: rows) st = (readStep names r ≫= λ _, readLoop names rows) st.
Proof.
  unfold readLoop. simpl. unfold mbind, M_bind.
  by destruct (readStep names r st) as [[[] st']| |].
Qed.

Lemma index_Return {A} (l : list A) (i : Z) (x : A) :
  0 ≤ i → l !! Z.to_nat i = Some x → index l i = Return x.
Proof. intros Hi Hx. unfold index. rewrite decide_True by done. by rewrite Hx. Qed.

Lemma index_inv {A} (l : list A) (i : Z) (x : A) :
  index l i = Return x → 0 ≤ i ∧ l !! Z.to_nat i = Some x.
Proof.
  unfold index. case_decide; [|done].
  destruct (l !! Z.to_nat i) eqn:Hx; [|done]. by intros [= ->].
Qed.

(** A record the reader reports an error for. *)
Lemma readStep_error names items err st :
  readStep names (ReadErr items err) st
  = Return (tt, mkLoader (connects st) (int_add (bodyNum st) 1)
                  (logged st ++ ["Warning: " +:+ err])).
Proof. reflexivity. Qed.

(** A record whose first field is blank. *)
Lemma readStep_blank names items st :
  items !! 0%nat = Some "" → readStep names (ReadOk items) st = Return (tt, st).
Proof.
  intros Hblank. unfold readStep.
  rewrite (index_Return items 0 "") by done. unfold_M.
  by rewrite decide_True.
Qed.

(** A record with a first field and the wrong number of fields. *)
Lemma readStep_shape names items item0 st :
  items !! 0%nat = Some item0 → item0 ≠ "" → length items ≠ length names →
  readStep names (ReadOk items) st
  = Fatal (InconsistentColumns (Z.of_nat (length items)) (Z.of_nat (length names))).
Proof.
  intros Hitem0 Hne Hlen. unfold readStep.
  rewrite (index_Return items 0 item0) by done. unfold_M.
  rewrite decide_False by done. by rewrite decide_True by lia.
Qed.

(** Once a record has stopped the load, the load has stopped. *)
Lemma ReadConnectionsCSV_stops names before r after :
  (∀ st result, readStep names r st ≠ Return result) →
  ∀ result, ReadConnectionsCSV names (before ++ r :: after) ≠ Return result.
Proof.
  intros Hstop result. unfold ReadConnectionsCSV.
  rewrite readLoop_app. unfold mbind at 1. unfold M_bind.
  destruct (readLoop names before newLoader) as [[[] st]| |]; [|done..].
  rewrite readLoop_cons. unfold mbind, M_bind.
  destruct (readStep names r st) as [result'| |] eqn:Hstep; [|done..].
  by destruct (Hstop st result').
Qed.

(** C8, as the loader has it: a record with a non-blank first field and a
    number of fields other than the number of names stops the load: with
    the fatal error on the number of columns when the load has come that
    far, and in no case does the load return. *)
Theorem shape_mismatch_fatal (names : CellList) (before after : list ReadResult)
    (items : list string) (item0 : string) :
  items !! 0%nat = Some item0 → item0 ≠ "" → length items ≠ length names →
  (∀ st, readLoop names before newLoader = Return (tt, st) →
     ReadConnectionsCSV names (before ++ ReadOk items :: after)
     = Fatal (InconsistentColumns (Z.of_nat (length items))
                                  (Z.of_nat (length names)))) ∧
  (∀ result,
     ReadConnectionsCSV names (before ++ ReadOk items :: after) ≠ Return result).
Proof.
  intros Hitem0 Hne Hlen. split.
  - intros st Hbefore. unfold ReadConnectionsCSV.
    rewrite readLoop_app. erewrite bind_Return by exact Hbefore.
    rewrite readLoop_cons.
    by erewrite bind_Fatal by (by eapply readStep_shape).
  - apply ReadConnectionsCSV_stops. intros st result.
    by erewrite readStep_shape.
Qed.

Lemma shape_mismatch_fatal_witness :
  (∀ st, readLoop exampleNames [ReadOk ["0"; "5"; "0"]] newLoader = Return (tt, st) →
     ReadConnectionsCSV exampleNames
       ([ReadOk ["0"; "5"; "0"]] ++ ReadOk ["2"; "0"] :: [ReadOk ["0"; "0"; "0"]])
     = Fatal (InconsistentColumns (Z.of_nat (length ["2"; "0"]))
                                  (Z.of_nat (length exampleNames)))) ∧
  (∀ result,
     ReadConnectionsCSV exampleNames
       ([ReadOk ["0"; "5"; "0"]] ++ ReadOk ["2"; "0"] :: [ReadOk ["0"; "0"; "0"]])
     ≠ Return result).
Proof.
  apply (shape_mismatch_fatal exampleNames [ReadOk ["0"; "5"; "0"]]
           [ReadOk ["0"; "0"; "0"]] ["2"; "0"] "2").
  - reflexivity.
  - discriminate.
  - simpl. lia.
Defined.

(** C8 as stated fails: a record of two fields, for three names, whose
    first field is blank is passed over, and the load returns. *)
Lemma shape_mismatch_blank_skipped :
  length [""; "5"] ≠ length exampleNames ∧
  ReadConnectionsCSV exampleNames [ReadOk [""; "5"]] = Return (∅, []) ∧
  ReadConnectionsCSV exampleNames (ReadOk [""; "5"] :: exampleRows)
  = Return (exampleConnectome, []).
Proof. split; [simpl; lia|]. vm_compute. done. Qed.

(** C9: a record whose first field is blank leaves the loader as it
    found it, the row counter included: the load goes on as if the record
    were not there. *)
Theorem blank_row_skipped (names : CellList) (before after : list ReadResult)
    (items : list string) (st : Loader) :
  items !! 0%nat = Some "" →
  readStep names (ReadOk items) st = Return (tt, st) ∧
  readLoop names (before ++ ReadOk items :: after) st
    = readLoop names (before ++ after) st ∧
  ReadConnectionsCSV names (before ++ ReadOk items :: after)
    = ReadConnectionsCSV names (before ++ after).
Proof.
  intros Hblank.
  assert (∀ st, readLoop names (before ++ ReadOk items :: after) st
                = readLoop names (before ++ after) st) as Hloop.
  { intros st0. rewrite !readLoop_app. unfold mbind, M_bind.
    destruct (readLoop names before st0) as [[[] st1]| |]; [|done..].
    rewrite readLoop_cons. by erewrite bind_Return by (by apply readStep_blank). }
  split_and!; [by apply readStep_blank|done|].
  unfold ReadConnectionsCSV. by rewrite Hloop.
Qed.

Lemma blank_row_skipped_witness :
  readStep exampleNames (ReadOk [""; ""; ""]) newLoader = Return (tt, newLoader) ∧
  readLoop exampleNames
      ([ReadOk ["0"; "5"; "0"]] ++ ReadOk [""; ""; ""] :: [ReadOk ["2"; "0"; "0"]])
      newLoader
    = readLoop exampleNames
        ([ReadOk ["0"; "5"; "0"]] ++ [ReadOk ["2"; "0"; "0"]]) newLoader ∧
  ReadConnectionsCSV exampleNames
      ([ReadOk ["0"; "5"; "0"]] ++ ReadOk [""; ""; ""] :: [ReadOk ["2"; "0"; "0"]])
    = ReadConnectionsCSV exampleNames
        ([ReadOk ["0"; "5"; "0"]] ++ [ReadOk ["2"; "0"; "0"]]).
Proof.
  apply (blank_row_skipped exampleNames [ReadOk ["0"; "5"; "0"]]
           [ReadOk ["2"; "0"; "0"]] [""; ""; ""] newLoader).
  reflexivity.
Defined.

(** C10: a record the reader reports an error for is logged, leaves the
    connectome as it is and moves the row counter on by one: the rest of
    the load runs from the next position of the name table, where after a
    record with a blank first field it runs from the same one. *)
Theorem read_error_consumes_slot (names : CellList) (items : list string)
    (err : string) (after : list ReadResult) (st : Loader) :
  int_min ≤ bodyNum st < int_max →
  readStep names (ReadErr items err) st
    = Return (tt, mkLoader (connects st) (bodyNum st + 1)
                    (logged st ++ ["Warning: " +:+ err])) ∧
  readLoop names (ReadErr items err :: after) st
    = readLoop names after
        (mkLoader (connects st) (bodyNum st + 1)
           (logged st ++ ["Warning: " +:+ err])) ∧
  (∀ blank, blank !! 0%nat = Some "" →
     readLoop names (ReadOk blank :: after) st = readLoop names after st).
Proof.
  intros Hrange.
  assert (readStep names (ReadErr items err) st
          = Return (tt, mkLoader (connects st) (bodyNum st + 1)
                          (logged st ++ ["Warning: " +:+ err]))) as Hstep.
  { by rewrite readStep_error, int_add_succ. }
  split_and!; [done|..].
  { rewrite readLoop_cons. by erewrite bind_Return by exact Hstep. }
  intros blank Hblank. rewrite readLoop_cons.
  by erewrite bind_Return by (by apply readStep_blank).
Qed.

Lemma read_error_consumes_slot_witness :
  readStep exampleNames (ReadErr [] "bare quote") newLoader
    = Return (tt, mkLoader (connects newLoader) (bodyNum newLoader + 1)
                    (logged newLoader ++ ["Warning: " +:+ "bare quote"])) ∧
  readLoop exampleNames (ReadErr [] "bare quote" :: [ReadOk ["2"; "0"; "0"]]) newLoader
    = readLoop exampleNames [ReadOk ["2"; "0"; "0"]]
        (mkLoader (connects newLoader) (bodyNum newLoader + 1)
           (logged newLoader ++ ["Warning: " +:+ "bare quote"])) ∧
  (∀ blank, blank !! 0%nat = Some "" →
     readLoop exampleNames (ReadOk blank :: [ReadOk ["2"; "0"; "0"]]) newLoader
     = readLoop exampleNames [ReadOk ["2"; "0"; "0"]] newLoader).
Proof.
  apply (read_error_consumes_slot exampleNames [] "bare quote"
           [ReadOk ["2"; "0"; "0"]] newLoader).
  vm_compute. split; [discriminate|reflexivity].
Defined.

(** The error record takes the place of a row: the row after it is read
    as the row of the second name; a blank record takes none. *)
Example error_row_shifts :
  ReadConnectionsCSV exampleNames [ReadErr [] "bare quote"; ReadOk ["2"; "0"; "0"]]
    = Return ({[ "B" := {[ "A" := 2 ]} ]}, ["Warning: bare quote"]) ∧
  ReadConnectionsCSV exampleNames [ReadOk [""; ""; ""]; ReadOk ["2"; "0"; "0"]]
    = Return ({[ "A" := {[ "A" := 2 ]} ]}, []) ∧
  ReadConnectionsCSV exampleNames [ReadOk ["2"; "0"; "0"]]
    = Return ({[ "A" := {[ "A" := 2 ]} ]}, []).
Proof. vm_compute. done. Qed.

(** ** The loader: what it stores *)

(** An invariant that may mention the part of the slice already
    visited. *)
Lemma foldM_invariant_prefix {S A B} (f : A → B → M S A)
    (I : list B → A → S → Prop) l a s a' s' :
  (∀ visited x rest a s a' s', l = visited ++ x :: rest →
     I visited a s → f a x s = Return (a', s') → I (visited ++ [x]) a' s') →
  I [] a s → foldM f l a s = Return (a', s') → I l a' s'.
Proof.
  intros Hstep.
  assert (∀ rest visited a s, l = visited ++ rest → I visited a s →
            foldM f rest a s = Return (a', s') → I l a' s') as Hgen.
  { induction rest as [|x rest IH]; intros visited a0 s0 Hl Ha Hret; simpl in Hret.
    - unfold_M. rewrite app_nil_r in Hl. by simplify_eq.
    - apply bind_inv in Hret as (a1 & s1 & Hx & Hret).
      apply (IH (visited ++ [x]) a1 s1); [by rewrite <-app_assoc| |done].
      by eapply Hstep. }
  intros Ha Hret. by apply (Hgen l [] a s).
Qed.

Lemma lift_inv {S A} (o : outcome A) (s s' : S) (a : A) :
  lift o s = Return (a, s') → o = Return a ∧ s' = s.
Proof. unfold lift. destruct o; [|done..]. by intros [= -> ->]. Qed.

Lemma get_inv {S} (s s' a : S) : get s = Return (a, s') → a = s ∧ s' = s.
Proof. unfold get. by intros [= -> ->]. Qed.

Lemma keysBelow_mono names n n' nc : n ≤ n' → keysBelow names n nc → keysBelow names n' nc.
Proof. intros Hn Hkeys pre Hpre. destruct (Hkeys pre Hpre) as (k & ? & ?). exists k. split; [lia|done]. Qed.

Lemma onConnects_AddConnection pre post strength st :
  onConnects (AddConnection pre post strength) st
  = Return (tt, mkLoader
      (<[pre := <[post := match entry (connects st) pre post with
                          | Some v => int_add v strength
                          | None => strength
                          end]> (default ∅ (connects st !! pre))]> (connects st))
      (bodyNum st) (logged st)).
Proof. unfold onConnects, zoom. by rewrite AddConnection_eq. Qed.

Section DistinctNames.
Variable names : CellList.
Hypothesis names_distinct : NoDup names.

(** The row of a fresh name: no pair is added to twice, so each entry
    is the one positive field it was read from. *)
Lemma readRow_invariant items st st' :
  keysBelow names (bodyNum st) (connects st) → positive (connects st) →
  readRow names items st = Return (tt, st') →
  bodyNum st' = bodyNum st ∧
  keysBelow names (bodyNum st + 1) (connects st') ∧ positive (connects st').
Proof.
  intros Hkeys Hpos Hret. unfold readRow in Hret.
  apply bind_inv in Hret as (st0 & st1 & [-> ->]%get_inv & Hret).
  apply bind_inv in Hret as (preName & st1 & Hpre & Hret).
  apply lift_inv in Hpre as [[Hb Hpre]%index_inv ->].
  cut (bodyNum st' = bodyNum st ∧ positive (connects st') ∧
    (∀ pre, is_Some (connects st' !! pre) →
       pre = preName ∨ ∃ k : nat, Z.of_nat k < bodyNum st ∧ names !! k = Some pre) ∧
    (∀ post, is_Some (entry (connects st') preName post) →
       ∃ c, c ∈ seqZ 0 (Z.of_nat (length items)) ∧ 0 ≤ c ∧
            names !! Z.to_nat c = Some post)).
  { intros (Hnum & Hpos' & Hkeys' & _). split_and!; [done| |done].
    intros pre Hsome. destruct (Hkeys' pre Hsome) as [->|(k & Hk & Hnames)].
    + exists (Z.to_nat (bodyNum st)). split; [lia|done].
    + exists k. split; [lia|done]. }
  revert Hret.
  apply (foldM_invariant_prefix _ (λ visited _ st1,
    bodyNum st1 = bodyNum st ∧ positive (connects st1) ∧
    (∀ pre, is_Some (connects st1 !! pre) →
       pre = preName ∨ ∃ k : nat, Z.of_nat k < bodyNum st ∧ names !! k = Some pre) ∧
    (∀ post, is_Some (entry (connects st1) preName post) →
       ∃ c, c ∈ visited ∧ 0 ≤ c ∧ names !! Z.to_nat c = Some post)) _ tt st tt st').
  - intros visited i rest [] st1 [] st2 Hcols (Hnum & Hpos1 & Hkeys1 & Hposts1) Hbody.
    assert (0 ≤ i ∧ i ∉ visited) as [Hi Hfresh].
    { pose proof (NoDup_seqZ 0 (Z.of_nat (length items))) as Hnodup.
      assert (i ∈ seqZ 0 (Z.of_nat (length items))) as Hin.
      { rewrite Hcols. apply elem_of_app. right. apply list_elem_of_here. }
      apply elem_of_seqZ in Hin. split; [lia|].
      rewrite Hcols in Hnodup. apply NoDup_app in Hnodup as (_ & Hdisj & _).
      intros Hv. apply (Hdisj i Hv), list_elem_of_here. }
    assert (∀ post, (∃ c, c ∈ visited ∧ 0 ≤ c ∧ names !! Z.to_nat c = Some post) →
              ∃ c, c ∈ visited ++ [i] ∧ 0 ≤ c ∧ names !! Z.to_nat c = Some post)
      as Hmore.
    { intros post (c & Hc & ?). exists c. split; [|done].
      apply elem_of_app. by left. }
    apply bind_inv in Hbody as (postName & st3 & Hpost & Hbody).
    apply lift_inv in Hpost as [[_ Hpost]%index_inv ->].
    apply bind_inv in Hbody as (item & st3 & Hitem & Hbody).
    apply lift_inv in Hitem as [_ ->].
    destruct (Atoi item) as [strength|]; [|done].
    case_decide as Hstrength; [|unfold_M; simplify_eq; naive_solver].
    rewrite onConnects_AddConnection in Hbody. simplify_eq. simpl.
    assert (entry (connects st1) preName postName = None) as Hnone.
    { destruct (entry (connects st1) preName postName) eqn:Hentry; [|done].
      destruct (Hposts1 postName) as (c & Hc & Hc0 & Hnames); [by eexists|].
      assert (Z.to_nat c = Z.to_nat i) as Heq
        by (eapply NoDup_lookup; [exact names_distinct|done..]).
      destruct Hfresh. replace i with c by lia. done. }
    rewrite Hnone. split_and!; [done|..].
    + intros pre post v. rewrite entry_insert.
      destruct (decide (preName = pre)) as [<-|]; [|apply Hpos1].
      destruct (decide (postName = post)) as [<-|].
      * intros [= <-]. lia.
      * intros Hv. apply (Hpos1 preName post). unfold entry.
        by destruct (connects st1 !! preName).
    + intros pre. rewrite lookup_insert.
      destruct (decide (preName = pre)) as [<-|]; [by left|apply Hkeys1].
    + intros post. rewrite entry_insert, decide_True by done.
      destruct (decide (postName = post)) as [<-|].
      * intros _. exists i. split_and!; [|done..].
        apply elem_of_app. right. apply list_elem_of_here.
      * intros Hsome. apply Hmore, Hposts1. unfold entry.
        by destruct (connects st1 !! preName).
  - split_and!; [done|done|..].
    + intros pre Hsome. right. by apply Hkeys.
    + intros post [v Hv]. unfold entry in Hv.
      destruct (connects st !! preName) as [connections|] eqn:Hconnections; [|done].
      destruct (Hkeys preName) as (k & Hk & Hnames); [by eexists|].
      assert (k = Z.to_nat (bodyNum st))
        by (eapply NoDup_lookup; [exact names_distinct|done..]).
      lia.
Qed.

Lemma readStep_invariant r st st' :
  0 ≤ bodyNum st < int_max →
  keysBelow names (bodyNum st) (connects st) → positive (connects st) →
  readStep names r st = Return (tt, st') →
  bodyNum st ≤ bodyNum st' ≤ bodyNum st + 1 ∧
  keysBelow names (bodyNum st') (connects st') ∧ positive (connects st').
Proof.
  intros Hnum Hkeys Hpos Hret. destruct r as [items|items err].
  - unfold readStep in Hret.
    apply bind_inv in Hret as (item0 & st1 & Hitem0 & Hret).
    apply lift_inv in Hitem0 as [_ ->].
    case_decide; [unfold_M; simplify_eq; split_and!; [lia..|done|done]|].
    case_decide; [done|].
    apply bind_inv in Hret as ([] & st1 & Hrow & Hret).
    apply readRow_invariant in Hrow as (Hnum1 & Hkeys1 & Hpos1); [|done..].
    unfold incrBodyNum in Hret. simplify_eq. simpl.
    rewrite Hnum1, int_add_succ by (unfold int_min; lia).
    split_and!; [lia..|done|done].
  - rewrite readStep_error in Hret. simplify_eq. simpl.
    rewrite int_add_succ by (unfold int_min; lia).
    split_and!; [lia..| |done].
    eapply keysBelow_mono; [|done]. lia.
Qed.

Lemma readLoop_invariant rows st' :
  Z.of_nat (length rows) ≤ int_max →
  readLoop names rows newLoader = Return (tt, st') →
  positive (connects st').
Proof.
  intros Hrows Hret.
  cut (0 ≤ bodyNum st' ≤ Z.of_nat (length rows) ∧
       keysBelow names (bodyNum st') (connects st') ∧ positive (connects st')).
  { tauto. }
  revert Hret. unfold readLoop.
  apply (foldM_invariant_prefix _ (λ visited _ st,
    0 ≤ bodyNum st ≤ Z.of_nat (length visited) ∧
    keysBelow names (bodyNum st) (connects st) ∧ positive (connects st))
    _ tt newLoader tt st').
  - intros visited r rest [] st [] st1 Hrest (Hnum & Hkeys & Hpos) Hstep.
    assert (Z.of_nat (length visited) < Z.of_nat (length rows)).
    { rewrite Hrest, length_app. simpl. lia. }
    apply readStep_invariant in Hstep as (Hnum1 & Hkeys1 & Hpos1); [|lia|done..].
    rewrite length_app. simpl. split_and!; [lia..|done|done].
  - simpl. split_and!; [lia..| |].
    + intros pre Hsome. rewrite lookup_empty in Hsome. by destruct Hsome.
    + intros pre post v. unfold entry. by rewrite lookup_empty.
Qed.

End DistinctNames.

(** With pairwise distinct names (and fewer than [2^63] records, so
    that the row counter does not wrap) no pair is added to twice, and
    every strength in the connectome the loader returns is a positive
    field. *)
Lemma distinct_names_positive (names : CellList) (rows : list ReadResult)
    (nc : NamedConnectome) (log : list string) :
  NoDup names → Z.of_nat (length rows) ≤ int_max →
  ReadConnectionsCSV names rows = Return (nc, log) →
  ∀ pre post connections v,
    nc !! pre = Some connections → connections !! post = Some v → 0 < v.
Proof.
  intros Hnames Hrows Hret pre post connections v Hpre Hpost.
  unfold ReadConnectionsCSV in Hret.
  destruct (readLoop names rows newLoader) as [[[] st]| |] eqn:Hloop; [|done..].
  simplify_eq.
  apply (readLoop_invariant names Hnames rows st Hrows Hloop pre post v).
  unfold entry. by rewrite Hpre.
Qed.

(** ** The loader when no sum overflows *)

(** With [int_add] the parameterised loader is the loader. *)
Lemma AddConnectionWith_int_add pre post strength :
  AddConnectionWith int_add pre post strength = AddConnection pre post strength.
Proof. reflexivity. Qed.

Lemma ReadConnectionsCSVWith_int_add names rows :
  ReadConnectionsCSVWith int_add names rows = ReadConnectionsCSV names rows.
Proof. reflexivity. Qed.

Lemma AddConnectionWith_eq add nc pre post strength :
  AddConnectionWith add pre post strength nc
  = Return (tt, <[pre := <[post := match entry nc pre post with
                                   | Some v => add v strength
                                   | None => strength
                                   end]> (default ∅ (nc !! pre))]> nc).
Proof.
  unfold AddConnectionWith, assign2. unfold_M.
  destruct (decide (size nc = 0%nat)) as [Hsize|Hsize]; simpl.
  - apply map_size_empty_iff in Hsize as ->.
    unfold entry. rewrite lookup_empty. simpl. rewrite lookup_insert_eq.
    by rewrite insert_insert_eq.
  - rewrite index2_entry. unfold entry.
    destruct (nc !! pre) as [connections|] eqn:Hpre; simpl.
    + destruct (connections !! post) as [v|] eqn:Hpost; simpl;
        by rewrite Hpre.
    + rewrite lookup_insert_eq. by rewrite insert_insert_eq.
Qed.

Lemma entry_insert_other (nc : NamedConnectome) pre post v post' :
  post ≠ post' →
  entry (<[pre := <[post := v]> (default ∅ (nc !! pre))]> nc) pre post'
  = entry nc pre post'.
Proof.
  intros Hne. rewrite entry_insert, decide_True, decide_False by done.
  unfold entry. by destruct (nc !! pre).
Qed.

Lemma grownTo_refl nc : grownTo nc nc.
Proof. intros pre post v Hv. by exists v. Qed.

Lemma grownTo_trans nc1 nc2 nc3 : grownTo nc1 nc2 → grownTo nc2 nc3 → grownTo nc1 nc3.
Proof.
  intros H12 H23 pre post v Hv.
  destruct (H12 pre post v Hv) as (v2 & Hv2 & ?).
  destruct (H23 pre post v2 Hv2) as (v3 & Hv3 & ?).
  exists v3. split; [done|lia].
Qed.

Lemma withinInt_grownTo nc nc' : grownTo nc nc' → withinInt nc' → withinInt nc.
Proof.
  intros Hgrown Hwithin pre post v Hv.
  destruct (Hgrown pre post v Hv) as (v' & Hv' & ?).
  specialize (Hwithin pre post v' Hv'). lia.
Qed.

(** Two loops over the same slice, the second of which follows the first
    as long as the state the first one ends in is within bounds. *)
Lemma foldM_follows {S A B} (f g : A → B → M S A) (P Bd : S → Prop)
    (le : S → S → Prop) :
  (∀ s, le s s) → (∀ s1 s2 s3, le s1 s2 → le s2 s3 → le s1 s3) →
  (∀ s s', le s s' → Bd s' → Bd s) →
  (∀ a x s a' s', P s → f a x s = Return (a', s') →
     P s' ∧ le s s' ∧ (Bd s' → g a x s = Return (a', s'))) →
  ∀ l a s a' s', P s → foldM f l a s = Return (a', s') →
    P s' ∧ le s s' ∧ (Bd s' → foldM g l a s = Return (a', s')).
Proof.
  intros Hrefl Htrans Hdown Hstep.
  induction l as [|x l IH]; intros a s a' s' HP Hret; simpl in Hret.
  - unfold_M. simplify_eq. by split_and!.
  - apply bind_inv in Hret as (a1 & s1 & Hx & Hret).
    destruct (Hstep a x s a1 s1 HP Hx) as (HP1 & Hle1 & Hg1).
    destruct (IH a1 s1 a' s' HP1 Hret) as (HP' & Hle' & Hg').
    split_and!; [done|by eapply Htrans|].
    intros Hbd. simpl. erewrite bind_Return; [by apply Hg'|].
    apply Hg1. by eapply Hdown.
Qed.

Section NoOverflow.
Variable names : CellList.

Let P (st : Loader) : Prop := positive (connects st).
Let Bd (st : Loader) : Prop := withinInt (connects st).
Let le (st st' : Loader) : Prop := grownTo (connects st) (connects st').

(** One addition of the exact loader: the sum stays positive, entries
    only grow, and unless the sum is beyond [int] the loader stores the
    same. *)
Lemma readFieldWith_follows items preName i st st' :
  P st → readFieldWith Z.add names items preName tt i st = Return (tt, st') →
  P st' ∧ le st st' ∧
  (Bd st' → readFieldWith int_add names items preName tt i st = Return (tt, st')).
Proof.
  unfold P, Bd, le. intros Hpos Hret. unfold readFieldWith in *.
  apply bind_inv in Hret as (postName & st1 & Hpost & Hret).
  apply lift_inv in Hpost as [Hpost ->].
  apply bind_inv in Hret as (item & st1 & Hitem & Hret).
  apply lift_inv in Hitem as [Hitem ->].
  erewrite !bind_Return by (unfold lift; by rewrite ?Hpost, ?Hitem).
  destruct (Atoi item) as [strength|]; [|done].
  case_decide as Hstrength;
    [|unfold_M; simplify_eq; split_and!; [done|apply grownTo_refl|done]].
  unfold onConnects, zoom in *. rewrite AddConnectionWith_eq in *.
  simplify_eq. simpl.
  set (nc := connects st) in *.
  assert (0 < match entry nc preName postName with
              | Some v => v + strength
              | None => strength
              end) as Hsum.
  { destruct (entry nc preName postName) as [v|] eqn:Hentry; [|lia].
    specialize (Hpos preName postName v Hentry). lia. }
  split_and!.
  - intros pre post v. rewrite entry_insert.
    destruct (decide (preName = pre)) as [<-|]; [|apply Hpos].
    destruct (decide (postName = post)) as [<-|Hne].
    + intros [= <-]. done.
    + intros Hv. apply (Hpos preName post). unfold entry.
      by destruct (nc !! preName).
  - intros pre post v Hv. rewrite entry_insert.
    destruct (decide (preName = pre)) as [<-|]; [|by exists v].
    destruct (decide (postName = post)) as [<-|Hne].
    + rewrite Hv. eexists. split; [done|lia].
    + exists v. split; [|done]. unfold entry in *. by destruct (nc !! preName).
  - intros Hwithin.
    destruct (entry nc preName postName) as [v|] eqn:Hentry; [|done].
    assert (int_add v strength = v + strength) as ->; [|done].
    apply wrap_in_range. split; [unfold int_min; lia|].
    apply (Hwithin preName postName). rewrite entry_insert.
    by rewrite !decide_True.
Qed.

Lemma readRowWith_follows items st st' :
  P st → readRowWith Z.add names items st = Return (tt, st') →
  P st' ∧ le st st' ∧
  (Bd st' → readRowWith int_add names items st = Return (tt, st')).
Proof.
  intros Hpos Hret. unfold readRowWith in *.
  apply bind_inv in Hret as (st0 & st1 & [-> ->]%get_inv & Hret).
  apply bind_inv in Hret as (preName & st1 & Hpre & Hret).
  apply lift_inv in Hpre as [Hpre ->].
  erewrite bind_Return by reflexivity.
  erewrite bind_Return by (unfold lift; by rewrite Hpre).
  revert Hret. destruct st' as [nc' n' log'].
  generalize (mkLoader nc' n' log'). intros st' Hret.
  apply (foldM_follows (readFieldWith Z.add names items preName)
           (readFieldWith int_add names items preName) P Bd le)
    with (a := tt) (a' := tt); [..|done|done].
  - intros s. apply grownTo_refl.
  - intros s1 s2 s3. apply grownTo_trans.
  - intros s s'. apply withinInt_grownTo.
  - intros [] i s [] s'. apply readFieldWith_follows.
Qed.

Lemma readStepWith_follows r st st' :
  P st → readStepWith Z.add names r st = Return (tt, st') →
  P st' ∧ le st st' ∧
  (Bd st' → readStepWith int_add names r st = Return (tt, st')).
Proof.
  intros Hpos Hret. destruct r as [items|items err].
  - unfold readStepWith in *.
    apply bind_inv in Hret as (item0 & st1 & Hitem0 & Hret).
    apply lift_inv in Hitem0 as [Hitem0 ->].
    erewrite bind_Return by (unfold lift; by rewrite Hitem0).
    case_decide.
    { unfold_M. simplify_eq. split_and!; [done|apply grownTo_refl|done]. }
    case_decide; [done|].
    apply bind_inv in Hret as ([] & st1 & Hrow & Hret).
    apply readRowWith_follows in Hrow as (Hpos1 & Hle1 & Hrow); [|done].
    unfold incrBodyNum in Hret. simplify_eq.
    split_and!; [done|done|]. intros Hwithin.
    by erewrite bind_Return by (by apply Hrow).
  - simpl in *. unfold_M. unfold logWarning, incrBodyNum in *. simplify_eq.
    split_and!; [done|apply grownTo_refl|done].
Qed.

Lemma readLoopWith_follows rows st st' :
  P st → readLoopWith Z.add names rows st = Return (tt, st') →
  P st' ∧ le st st' ∧
  (Bd st' → readLoopWith int_add names rows st = Return (tt, st')).
Proof.
  unfold readLoopWith.
  apply (foldM_follows (λ _ r, readStepWith Z.add names r)
           (λ _ r, readStepWith int_add names r) P Bd le).
  - intros s. apply grownTo_refl.
  - intros s1 s2 s3. apply grownTo_trans.
  - intros s s'. apply withinInt_grownTo.
  - intros [] r s [] s'. apply readStepWith_follows.
Qed.

End NoOverflow.

(** C2, as the loader has it: when no sum overflows, that is when the
    strengths the loader accumulates for the pairs, formed exactly, are
    all within [int], the connectome the loader returns holds these exact
    sums, and every strength stored in it, accumulated ones included, is
    strictly positive. *)
Theorem loaded_strengths_positive (names : CellList) (rows : list ReadResult)
    (nc : NamedConnectome) (log : list string)
    (exact : NamedConnectome) (log' : list string) :
  ReadConnectionsCSV names rows = Return (nc, log) →
  ReadConnectionsCSVWith Z.add names rows = Return (exact, log') →
  withinInt exact →
  nc = exact ∧
  ∀ pre post connections v,
    nc !! pre = Some connections → connections !! post = Some v → 0 < v.
Proof.
  intros Hret Hexact Hwithin.
  unfold ReadConnectionsCSVWith in Hexact.
  destruct (readLoopWith Z.add names rows newLoader) as [[[] st]| |] eqn:Hloop;
    [|done..].
  simplify_eq.
  apply readLoopWith_follows in Hloop as (Hpos & _ & Hloop).
  2: { intros pre post v. unfold entry. simpl. by rewrite lookup_empty. }
  specialize (Hloop Hwithin).
  rewrite <-ReadConnectionsCSVWith_int_add in Hret.
  unfold ReadConnectionsCSVWith in Hret. rewrite Hloop in Hret. simplify_eq.
  split; [done|]. intros pre post connections v Hpre Hpost.
  apply (Hpos pre post v). unfold entry. by rewrite Hpre.
Qed.

Lemma loaded_strengths_positive_witness :
  ReadConnectionsCSV ["A"; "A"] [ReadOk ["3"; "4"]]
    = Return ({[ "A" := {[ "A" := 7 ]} ]}, []) ∧
  0 < 7.
Proof.
  assert (ReadConnectionsCSV ["A"; "A"] [ReadOk ["3"; "4"]]
          = Return ({[ "A" := {[ "A" := 7 ]} ]}, [])) as Hload.
  { vm_compute. reflexivity. }
  split; [done|].
  apply (loaded_strengths_positive ["A"; "A"] [ReadOk ["3"; "4"]]
           {[ "A" := {[ "A" := 7 ]} ]} [] {[ "A" := {[ "A" := 7 ]} ]} [])
    with (pre := "A") (post := "A") (connections := {[ "A" := 7 ]}).
  - exact Hload.
  - vm_compute. reflexivity.
  - intros pre post v. unfold entry.
    destruct (decide (pre = "A")) as [->|Hpre].
    + rewrite lookup_singleton_eq. simpl.
      destruct (decide (post = "A")) as [->|Hpost].
      * rewrite lookup_singleton_eq. intros [= <-]. vm_compute. discriminate.
      * by rewrite lookup_singleton_ne.
    + by rewrite lookup_singleton_ne.
  - vm_compute. reflexivity.
  - vm_compute. reflexivity.
Defined.

(** C2 as stated fails: a name listed twice makes the loader add to one
    pair twice, and the sum wraps. *)
Lemma loaded_strength_wraps :
  ∃ nc log connections,
    ReadConnectionsCSV ["A"; "A"] [ReadOk ["9223372036854775807"; "1"]]
      = Return (nc, log) ∧
    nc !! "A" = Some connections ∧
    connections !! "A" = Some int_min ∧
    ¬ 0 < int_min.
Proof.
  eexists _, _, _. split_and!.
  - vm_compute. reflexivity.
  - vm_compute. reflexivity.
  - vm_compute. reflexivity.
  - vm_compute. discriminate.
Qed.

(** * Further properties *)

(** ** [AddConnection] with [ConnectionStrength] *)

Lemma lookup_AddConnection nc nc' pre post strength pre' :
  AddConnection pre post strength nc = Return (tt, nc') →
  nc' !! pre'
  = if decide (pre = pre') then
      Some (<[post := match entry nc pre post with
                      | Some v => int_add v strength
                      | None => strength
                      end]> (default ∅ (nc !! pre)))
    else nc !! pre'.
Proof. rewrite AddConnection_eq. intros [= <-]. by rewrite lookup_insert. Qed.

(** X1: a lookup after an addition finds the accumulated strength of the
    pair, unless that strength is [0]; the lookups of all other pairs
    answer as before the addition. *)
Theorem ConnectionStrength_after_AddConnection nc pre post strength :
  ∃ nc' v,
    AddConnection pre post strength nc = Return (tt, nc') ∧
    v = match entry nc pre post with
        | Some old => int_add old strength
        | None => strength
        end ∧
    ConnectionStrength pre post nc' = Return ((v, bool_decide (v ≠ 0)), nc') ∧
    ∀ pre' post', (pre', post') ≠ (pre, post) →
      ∃ answer,
        ConnectionStrength pre' post' nc = Return (answer, nc) ∧
        ConnectionStrength pre' post' nc' = Return (answer, nc').
Proof.
  destruct (AddConnection pre post strength nc) as [[[] nc']| |] eqn:Hadd;
    [|by rewrite AddConnection_eq in Hadd..].
  eexists nc', _. split_and!; [done|done|..].
  - rewrite ConnectionStrength_eq.
    rewrite (entry_AddConnection _ _ _ _ _ pre post Hadd), decide_True by done.
    case_decide as Hv.
    + by rewrite bool_decide_eq_false_2 by (by intros []).
    + by rewrite bool_decide_eq_true_2.
  - intros pre' post' Hne. eexists. rewrite !ConnectionStrength_eq.
    rewrite (entry_AddConnection _ _ _ _ _ pre' post' Hadd).
    rewrite decide_False by (intros [-> ->]; done). done.
Qed.

(** X2: additions commute: two calls of [AddConnection], on the same
    pair or on different ones, leave the same connectome in either
    order. *)
Theorem AddConnection_comm nc pre1 post1 a pre2 post2 b :
  (AddConnection pre1 post1 a ≫= λ _, AddConnection pre2 post2 b) nc
  = (AddConnection pre2 post2 b ≫= λ _, AddConnection pre1 post1 a) nc.
Proof.
  unfold mbind, M_bind.
  destruct (AddConnection pre1 post1 a nc) as [[[] nc1]| |] eqn:H1;
    [|by rewrite AddConnection_eq in H1..].
  destruct (AddConnection pre2 post2 b nc) as [[[] nc2]| |] eqn:H2;
    [|by rewrite AddConnection_eq in H2..].
  destruct (AddConnection pre2 post2 b nc1) as [[[] nc12]| |] eqn:H12;
    [|by rewrite AddConnection_eq in H12..].
  destruct (AddConnection pre1 post1 a nc2) as [[[] nc21]| |] eqn:H21;
    [|by rewrite AddConnection_eq in H21..].
  do 2 f_equal. apply map_eq. intros pre.
  rewrite (lookup_AddConnection _ _ _ _ _ pre H12).
  rewrite (lookup_AddConnection _ _ _ _ _ pre H21).
  rewrite (entry_AddConnection _ _ _ _ _ pre2 post2 H1).
  rewrite (entry_AddConnection _ _ _ _ _ pre1 post1 H2).
  rewrite (lookup_AddConnection _ _ _ _ _ pre2 H1).
  rewrite (lookup_AddConnection _ _ _ _ _ pre1 H2).
  rewrite (lookup_AddConnection _ _ _ _ _ pre H1).
  rewrite (lookup_AddConnection _ _ _ _ _ pre H2).
  destruct (decide (pre1 = pre2)) as [<-|Hpre].
  - rewrite !(decide_True (P := pre1 = pre1)) by done. simpl.
    destruct (decide (pre1 = pre)) as [<-|]; [|done]. f_equal.
    apply map_eq. intros post. rewrite !lookup_insert.
    destruct (decide (post1 = post2)) as [<-|Hpost].
    + rewrite !(decide_True (P := pre1 = pre1 ∧ post1 = post1)) by done.
      destruct (decide (post1 = post)); [|done]. f_equal.
      destruct (entry nc pre1 post1) as [v|].
      * unfold int_add. rewrite !wrap_add_wrap_l. f_equal. lia.
      * unfold int_add. f_equal. lia.
    + rewrite (decide_False (P := pre1 = pre1 ∧ post1 = post2)) by (by intros [_ ?]).
      rewrite (decide_False (P := pre1 = pre1 ∧ post2 = post1)) by (by intros [_ ?]).
      repeat case_decide; by simplify_eq.
  - rewrite (decide_False (P := pre1 = pre2 ∧ post1 = post2)) by (by intros [? _]).
    rewrite (decide_False (P := pre2 = pre1 ∧ post2 = post1)) by (by intros [? _]).
    repeat case_decide; by simplify_eq.
Qed.

(** X3: [AddConnection] checks nothing: whatever the strength, zero and
    negative included, the source becomes a key of the connectome and a
    pair without an entry gets the strength as given; no key and no entry
    is ever removed. *)
Theorem AddConnection_grows nc pre post strength :
  ∃ nc',
    AddConnection pre post strength nc = Return (tt, nc') ∧
    dom nc' = {[pre]} ∪ dom nc ∧
    (∀ pre' post', is_Some (entry nc pre' post') → is_Some (entry nc' pre' post')) ∧
    (entry nc pre post = None → entry nc' pre post = Some strength).
Proof.
  destruct (AddConnection pre post strength nc) as [[[] nc']| |] eqn:Hadd;
    [|by rewrite AddConnection_eq in Hadd..].
  exists nc'. split_and!; [done|..].
  - rewrite AddConnection_eq in Hadd. simplify_eq. apply dom_insert_L.
  - intros pre' post' Hsome.
    rewrite (entry_AddConnection _ _ _ _ _ pre' post' Hadd). by case_decide.
  - intros Hnone.
    rewrite (entry_AddConnection _ _ _ _ _ pre post Hadd), decide_True by done.
    by rewrite Hnone.
Qed.

(** ** The [sort.Interface] methods *)

(** X4: [SortByStrength] rearranges the list it is given, losing and
    adding no connection, into descending order of strength. *)
Theorem SortByStrength_sorts `{GoRuntime} (connections : ConnectionList) :
  SortByStrength connections ≡ₚ connections ∧
  descendingByStrength (SortByStrength connections).
Proof.
  unfold SortByStrength. split; [apply sort_Sort_perm|].
  intros i j ci cj Hij Hi Hj.
  pose proof (sort_Sort_ascending _ _ connections ConnectionList_Less_swo) as Hsorted.
  pose proof (StronglySorted_lookup _ _ _ _ _ _ Hsorted Hij Hi Hj) as Hless.
  unfold ConnectionList_Less in Hless. apply bool_decide_eq_false in Hless. lia.
Qed.

Lemma CellList_Less_leb (a b : string) : CellList_Less a b = negb (String.leb a b).
Proof.
  unfold CellList_Less, String.ltb, String.leb.
  rewrite (String.compare_antisym a b). by destruct (String.compare b a).
Qed.

Lemma CellList_Less_swo : StrictWeakOrder CellList_Less.
Proof.
  assert (∀ a b, CellList_Less a b = false ↔ String.le a b) as Hle.
  { intros a b. rewrite CellList_Less_leb. unfold String.le.
    destruct (String.leb a b); simpl; naive_solver. }
  assert (∀ a b, CellList_Less a b = true ↔ ¬ String.le a b) as Hgt.
  { intros a b. rewrite <-Hle. by destruct (CellList_Less a b). }
  split.
  - intros a. by apply Hle.
  - intros a b c. rewrite !Hgt. intros Hab Hbc Hac.
    destruct (total String.le b a) as [Hba|Hba]; [|done].
    apply Hbc. by etrans.
  - intros a b c. rewrite !Hle. intros Hab Hbc. by etrans.
Qed.

(** X5: with [CellList.Less], [sort.Sort] arranges a name table in
    descending byte-wise order, keeping every name as often as it
    occurs. *)
Theorem CellList_sort_descending `{GoRuntime} (names : CellList) :
  sort_Sort CellList_Less names ≡ₚ names ∧
  ∀ i j a b, (i < j)%nat →
    sort_Sort CellList_Less names !! i = Some a →
    sort_Sort CellList_Less names !! j = Some b →
    String.le b a.
Proof.
  split; [apply sort_Sort_perm|].
  intros i j a b Hij Hi Hj.
  pose proof (sort_Sort_ascending _ _ names CellList_Less_swo) as Hsorted.
  pose proof (StronglySorted_lookup _ _ _ _ _ _ Hsorted Hij Hi Hj) as Hless.
  simpl in Hless. rewrite CellList_Less_leb in Hless. unfold String.le.
  by destruct (String.leb b a).
Qed.

Lemma index_Panic {A} (l : list A) (i : Z) :
  ¬ (0 ≤ i < Z.of_nat (length l)) →
  index l i = Panic (IndexOutOfRange i (Z.of_nat (length l))).
Proof.
  intros Hi. unfold index. case_decide; [|done].
  rewrite lookup_ge_None_2; [done|lia].
Qed.

Lemma index_in_range {A} (l : list A) (i : Z) :
  0 ≤ i < Z.of_nat (length l) → ∃ x, index l i = Return x ∧ l !! Z.to_nat i = Some x.
Proof.
  intros Hi. destruct (lookup_lt_is_Some_2 l (Z.to_nat i)) as [x Hx]; [lia|].
  exists x. split; [|done]. apply index_Return; [lia|done].
Qed.

(** X6: [Swap] returns exactly when both indices are within the slice:
    it then exchanges the two elements and leaves the others, so the
    result is a rearrangement of the slice and a second [Swap] undoes the
    first; with an index outside the slice it panics. *)
Theorem Swap_exchanges {A} (data : list A) (i j : Z) :
  match Swap data i j with
  | Some data' =>
      0 ≤ i < Len data ∧ 0 ≤ j < Len data ∧
      data' ≡ₚ data ∧
      data' !! Z.to_nat i = data !! Z.to_nat j ∧
      data' !! Z.to_nat j = data !! Z.to_nat i ∧
      (∀ k, k ≠ Z.to_nat i → k ≠ Z.to_nat j → data' !! k = data !! k) ∧
      Swap data' i j = Some data
  | None => ¬ (0 ≤ i < Len data ∧ 0 ≤ j < Len data)
  end.
Proof.
  unfold Swap, Len.
  destruct (decide (0 ≤ i < Z.of_nat (length data))) as [Hi|Hi];
    [|rewrite (index_Panic data i) by done; tauto].
  destruct (index_in_range data i Hi) as (xi & -> & Hxi).
  destruct (decide (0 ≤ j < Z.of_nat (length data))) as [Hj|Hj];
    [|rewrite (index_Panic data j) by done; tauto].
  destruct (index_in_range data j Hj) as (xj & -> & Hxj).
  assert (Z.to_nat i < length data)%nat by lia.
  assert (Z.to_nat j < length data)%nat by lia.
  split_and!; [lia..| | | | |].
  - by apply Permutation_insert_swap.
  - destruct (decide (Z.to_nat i = Z.to_nat j)) as [Heq|Hne].
    + rewrite Heq, list_lookup_insert_eq by (by rewrite length_insert). congruence.
    + rewrite list_lookup_insert_ne, list_lookup_insert_eq by done. done.
  - rewrite list_lookup_insert_eq by (by rewrite length_insert). done.
  - intros k Hki Hkj. by rewrite !list_lookup_insert_ne.
  - rewrite (index_Return _ i xj), (index_Return _ j xi); [|lia| |lia|].
    + f_equal. apply list_eq. intros k.
      destruct (decide (k = Z.to_nat j)) as [->|Hkj].
      { rewrite list_lookup_insert_eq by (by rewrite !length_insert). done. }
      rewrite list_lookup_insert_ne by done.
      destruct (decide (k = Z.to_nat i)) as [->|Hki].
      { rewrite list_lookup_insert_eq by (by rewrite !length_insert). done. }
      by rewrite !list_lookup_insert_ne.
    + rewrite list_lookup_insert_eq by (by rewrite length_insert). done.
    + destruct (decide (Z.to_nat i = Z.to_nat j)) as [Heq|Hne].
      * rewrite Heq, list_lookup_insert_eq by (by rewrite length_insert). congruence.
      * rewrite list_lookup_insert_ne, list_lookup_insert_eq by done. done.
Qed.

(** ** [MatchingNames] on a list of patterns *)

Section MatchingNamesMore.
Context `{GoRuntime}.

(** X7: [MatchingNames] panics exactly when one of the patterns is empty
    (on the slice of its last byte); otherwise it returns the names that
    match one of the patterns, keys of the connectome all of them, and
    leaves the connectome as it is.  In particular no patterns give no
    names. *)
Theorem MatchingNames_outcome (patterns : list string) (w : World) :
  match MatchingNames patterns w with
  | Return (matches, w') =>
      ("" ∉ patterns) ∧ connectivity w' = connectivity w ∧
      (patterns = [] → matches = []) ∧
      (∀ name, name ∈ matches ↔
         ∃ pattern, pattern ∈ patterns ∧
                    matchesPattern (connectivity w) pattern name)
  | Panic e => "" ∈ patterns ∧ e = SliceBoundsOutOfRange (-1) 0
  | Fatal _ => False
  end.
Proof.
  destruct (decide ("" ∈ patterns)) as [Hin|Hin].
  { by rewrite MatchingNames_Panic. }
  destruct (MatchingNames_Return patterns w) as (matches & w' & Heq & Hnc & Hm).
  { apply Forall_forall. by intros pattern Hp ->. }
  rewrite Heq. split_and!; [done|done| |done].
  intros ->. unfold MatchingNames in Heq. simpl in Heq. unfold_M. by simplify_eq.
Qed.

Lemma matchPattern_acc matches pattern w :
  matchPattern matches pattern w
  = (found ← matchPattern [] pattern; mret (matches ++ found)) w.
Proof.
  destruct (decide (pattern = "")) as [->|Hne].
  { by erewrite bind_Panic by apply matchPattern_empty. }
  destruct (endsInStar_dec pattern) as [[prefix ->]|Hstar].
  - erewrite bind_Return by apply matchPattern_star.
    by rewrite matchPattern_star.
  - erewrite bind_Return by (by apply matchPattern_exact).
    by rewrite matchPattern_exact.
Qed.

Lemma foldM_matchPattern_acc patterns matches w :
  foldM matchPattern patterns matches w
  = (found ← foldM matchPattern patterns []; mret (matches ++ found)) w.
Proof.
  revert matches w. induction patterns as [|pattern patterns IH]; intros matches w.
  - simpl. unfold_M. by rewrite app_nil_r.
  - simpl. unfold mbind, M_bind. rewrite matchPattern_acc.
    unfold mbind, M_bind.
    destruct (matchPattern [] pattern w) as [[found w']| |]; [|done..].
    unfold mret at 1. unfold M_ret. simpl.
    rewrite (IH (matches ++ found)), (IH found). unfold mbind, M_bind.
    destruct (foldM matchPattern patterns [] w') as [[found' w'']| |]; [|done..].
    unfold_M. by rewrite app_assoc.
Qed.

(** X8: the matches of a list of patterns are the matches of its parts,
    one after the other: nothing is merged, and a name matched by two
    patterns is returned twice. *)
Theorem MatchingNames_app (patterns1 patterns2 : list string) (w : World) :
  MatchingNames (patterns1 ++ patterns2) w
  = (matches1 ← MatchingNames patterns1;
     matches2 ← MatchingNames patterns2;
     mret (matches1 ++ matches2)) w.
Proof.
  unfold MatchingNames. rewrite foldM_app. unfold mbind at 1 2. unfold M_bind.
  destruct (foldM matchPattern patterns1 [] w) as [[matches1 w1]| |]; [|done..].
  apply foldM_matchPattern_acc.
Qed.

End MatchingNamesMore.

(** ** What a search finds *)

Section SearchMore.
Context `{GoRuntime}.

Lemma elem_of_connection (c : Connection) p q v :
  c ∈ [mkConnection p q v] ↔ pre c = p ∧ post c = q ∧ strength c = v.
Proof.
  rewrite list_elem_of_singleton. destruct c as [p' q' v']. simpl. split.
  - by intros [= -> -> ->].
  - by intros (-> & -> & ->).
Qed.

(** The connections the inner loop adds for one source name. *)
Lemma searchFrom_found nc targets connections source w connections' w' :
  connectivity w = nc →
  searchFrom targets connections source w = Return (connections', w') →
  connectivity w' = nc ∧
  ∀ c, c ∈ connections' ↔
    c ∈ connections ∨
    (pre c = source ∧
     (∃ q, q ∈ targets ∧ matchesPattern nc q (post c)) ∧
     entry nc (pre c) (post c) = Some (strength c) ∧ strength c ≠ 0).
Proof.
  intros Hnc Hret. unfold searchFrom in Hret.
  apply bind_inv in Hret as (postMatches & w1 & Hm & Hret).
  apply MatchingNames_inv in Hm as [Hnc1 Hm]. rewrite Hnc in *.
  cut (connectivity w' = nc ∧
       ∀ c, c ∈ connections' ↔
         c ∈ connections ∨
         (pre c = source ∧ post c ∈ postMatches ∧
          entry nc (pre c) (post c) = Some (strength c) ∧ strength c ≠ 0)).
  { intros [? Hiff]. split; [done|]. intros c. rewrite Hiff, Hm. tauto. }
  revert Hret.
  apply (foldM_invariant_prefix (addIfFound source)
    (λ visited connections' w', connectivity w' = nc ∧
       ∀ c, c ∈ connections' ↔
         c ∈ connections ∨
         (pre c = source ∧ post c ∈ visited ∧
          entry nc (pre c) (post c) = Some (strength c) ∧ strength c ≠ 0))).
  - intros visited target rest cs w2 cs' w2' _ [Hnc2 Hcs].
    rewrite addIfFound_eq, Hnc2. intros [= <- <-]. split; [done|].
    intros c. rewrite !elem_of_app, Hcs, list_elem_of_singleton.
    destruct (entry nc source target) as [v|] eqn:Hentry.
    + destruct (decide (v = 0)) as [->|Hv].
      * rewrite elem_of_nil. split; [tauto|].
        intros [?|(<- & [?| ->] & Hc & Hne)]; [tauto|tauto|congruence].
      * rewrite elem_of_connection. split.
        -- intros [[?|?]|(<- & <- & <-)]; [tauto|tauto|]. right. tauto.
        -- intros [?|(<- & [?| ->] & Hc & Hne)]; [tauto|tauto|].
           right. split_and!; [done|done|congruence].
    + rewrite elem_of_nil. split; [tauto|].
      intros [?|(<- & [?| ->] & Hc & Hne)]; [tauto|tauto|congruence].
  - split; [done|]. intros c. rewrite elem_of_nil. tauto.
Qed.

(** X9: a search that returns has found exactly the connections of the
    connectome from a name matching a source pattern to a name matching
    a target pattern whose stored strength is not [0], each with that
    strength; it has left the connectome as it was. *)
Theorem searchConnections_complete (w : World) (preNames postNames : string)
    (connections : ConnectionList) (w' : World) :
  searchConnections preNames postNames w = Return (connections, w') →
  connectivity w' = connectivity w ∧
  ∀ c, c ∈ connections ↔
    (∃ p, p ∈ TrimSpace <$> Split preNames ","%char ∧
          matchesPattern (connectivity w) p (pre c)) ∧
    (∃ q, q ∈ TrimSpace <$> Split postNames ","%char ∧
          matchesPattern (connectivity w) q (post c)) ∧
    entry (connectivity w) (pre c) (post c) = Some (strength c) ∧
    strength c ≠ 0.
Proof.
  unfold searchConnections. intros Hret.
  apply bind_inv in Hret as (preMatches & w1 & Hm & Hret).
  apply MatchingNames_inv in Hm as [Hnc1 Hm].
  apply bind_inv in Hret as (unsorted & w2 & Hloop & Hret).
  set (targets := TrimSpace <$> Split postNames ","%char) in *.
  assert (connectivity w2 = connectivity w ∧
          ∀ c, c ∈ unsorted ↔
            pre c ∈ preMatches ∧
            (∃ q, q ∈ targets ∧ matchesPattern (connectivity w) q (post c)) ∧
            entry (connectivity w) (pre c) (post c) = Some (strength c) ∧
            strength c ≠ 0) as [Hnc2 Hunsorted].
  { revert Hloop.
    apply (foldM_invariant_prefix (searchFrom targets)
      (λ visited connections w0, connectivity w0 = connectivity w ∧
         ∀ c, c ∈ connections ↔
           pre c ∈ visited ∧
           (∃ q, q ∈ targets ∧ matchesPattern (connectivity w) q (post c)) ∧
           entry (connectivity w) (pre c) (post c) = Some (strength c) ∧
           strength c ≠ 0)).
    - intros visited source rest cs w3 cs' w3' _ [Hnc3 Hcs] Hstep.
      apply (searchFrom_found (connectivity w)) in Hstep as [Hnc3' Hcs']; [|done].
      split; [done|]. intros c.
      rewrite Hcs', Hcs, elem_of_app, list_elem_of_singleton. tauto.
    - split; [done|]. intros c. rewrite !elem_of_nil. tauto. }
  assert (connections ≡ₚ unsorted ∧ w' = w2) as [Hperm ->].
  { unfold_M. case_decide; simplify_eq; [|done].
    split; [apply sort_Sort_perm|done]. }
  split; [done|]. intros c. rewrite Hperm, Hunsorted, Hm. tauto.
Qed.

(** X10: when no source pattern is empty and none matches a name, the
    page is the one for no connections, and the target patterns are never
    looked at: even an empty one, which would make [MatchingNames] panic,
    does no harm. *)
Theorem search_without_source_match (w : World) (preNames postNames : string) :
  Forall (λ pattern, pattern ≠ "") (TrimSpace <$> Split preNames ","%char) →
  (∀ p name, p ∈ TrimSpace <$> Split preNames ","%char →
             ¬ matchesPattern (connectivity w) p name) →
  ∃ w',
    searchConnections preNames postNames w = Return ([], w') ∧
    getSearchHTML preNames postNames w
      = Return ("<p><strong>No connections found.</strong></p>", w') ∧
    connectivity w' = connectivity w.
Proof.
  intros Hne Hnone.
  destruct (MatchingNames_Return _ w Hne) as (preMatches & w1 & Hm & Hnc & Hiff).
  assert (preMatches = []) as ->.
  { apply elem_of_nil_inv. intros name (p & Hp & Hmatch)%Hiff.
    by apply (Hnone p name). }
  assert (searchConnections preNames postNames w = Return ([], w1)) as Hsearch.
  { unfold searchConnections. by erewrite bind_Return by exact Hm. }
  exists w1. split_and!; [done| |done].
  unfold getSearchHTML. by erewrite bind_Return by exact Hsearch.
Qed.

End SearchMore.

Lemma searchConnections_complete_witness :
  connectivity exampleWorld = connectivity exampleWorld ∧
  ∀ c, c ∈ [mkConnection "A" "B" 5; mkConnection "B" "A" 2] ↔
    (∃ p, p ∈ TrimSpace <$> Split "A*, B" ","%char ∧
          matchesPattern (connectivity exampleWorld) p (pre c)) ∧
    (∃ q, q ∈ TrimSpace <$> Split "*" ","%char ∧
          matchesPattern (connectivity exampleWorld) q (post c)) ∧
    entry (connectivity exampleWorld) (pre c) (post c) = Some (strength c) ∧
    strength c ≠ 0.
Proof.
  apply (searchConnections_complete exampleWorld "A*, B" "*" _ exampleWorld).
  vm_compute. reflexivity.
Defined.

Lemma search_without_source_match_witness :
  ∃ w',
    searchConnections "Z" "" exampleWorld = Return ([], w') ∧
    getSearchHTML "Z" "" exampleWorld
      = Return ("<p><strong>No connections found.</strong></p>", w') ∧
    connectivity w' = connectivity exampleWorld.
Proof.
  apply (search_without_source_match exampleWorld "Z" "").
  - vm_compute. repeat constructor. discriminate.
  - intros p name Hp [Hname Hmatch].
    assert (p = "Z") as -> by (vm_compute in Hp; by apply list_elem_of_singleton in Hp).
    destruct Hmatch as [(prefix & Heq & _)|[_ ->]].
    + assert (endsInStar "Z") as Hstar%endsInStar_iff by (by exists prefix).
      vm_compute in Hstar. discriminate.
    + vm_compute in Hname. by destruct Hname.
Defined.


(** ** The name table *)

Lemma readCells_outcome rows names :
  match readCells rows names with
  | NamesRead names' =>
      (∀ r, r ∈ rows → ∃ items, r = ReadOk items) ∧
      names' = names ++ omap nameOf rows
  | NamesFatal err =>
      ∃ before items after,
        rows = before ++ ReadErr items err :: after ∧
        ∀ r, r ∈ before → ∃ items', r = ReadOk items'
  | NamesPanic e => e = IndexOutOfRange 0 0 ∧ ReadOk [] ∈ rows
  end.
Proof.
  revert names. induction rows as [|[items|items err] rows IH]; intros names; simpl.
  - split; [by intros r ?%elem_of_nil|by rewrite app_nil_r].
  - destruct items as [|item0 items]; simpl.
    { split; [done|apply list_elem_of_here]. }
    assert (∀ names0,
      match readCells rows names0 with
      | NamesRead names' =>
          (∀ r, r ∈ ReadOk (item0 :: items) :: rows → ∃ items', r = ReadOk items') ∧
          names' = names0 ++ omap nameOf rows
      | NamesFatal err =>
          ∃ before items' after,
            ReadOk (item0 :: items) :: rows = before ++ ReadErr items' err :: after ∧
            ∀ r, r ∈ before → ∃ items'', r = ReadOk items''
      | NamesPanic e =>
          e = IndexOutOfRange 0 0 ∧ ReadOk [] ∈ ReadOk (item0 :: items) :: rows
      end) as Hrest.
    { intros names0. specialize (IH names0).
      destruct (readCells rows names0) as [names'|err|e].
      - destruct IH as [Hok ->]. split; [|done].
        intros r [->|Hr]%elem_of_cons; [by eexists|by apply Hok].
      - destruct IH as (before & items' & after & -> & Hbefore).
        exists (ReadOk (item0 :: items) :: before), items', after. split; [done|].
        intros r [->|Hr]%elem_of_cons; [by eexists|by apply Hbefore].
      - destruct IH as [-> Hin]. split; [done|]. by apply list_elem_of_further. }
    case_decide as Hblank.
    + apply Hrest.
    + specialize (Hrest (names ++ [item0])).
      destruct (readCells rows (names ++ [item0])); [|done..].
      destruct Hrest as [Hok ->]. split; [done|]. by rewrite <-app_assoc.
  - exists [], items, rows. split; [done|]. by intros r ?%elem_of_nil.
Qed.

Lemma nameOf_nonempty (rows : list ReadResult) : "" ∉ omap nameOf rows.
Proof.
  intros (r & Hr & Hname)%list_elem_of_omap.
  destruct r as [[|item0 items]|]; simpl in Hname; [done| |done].
  case_decide; by simplify_eq.
Qed.

Lemma omap_length_le {A B} (f : A → option B) (l : list A) :
  (length (omap f l) ≤ length l)%nat.
Proof.
  induction l as [|x l IH]; simpl; [done|].
  unfold omap in IH. destruct (f x); simpl; lia.
Qed.

(** X11: [ReadCellsCSV] returns the non-blank first fields of the
    records, in their order and with repetitions, when every read
    succeeds, and no name it returns is empty; the first read error is
    fatal, where the loader of the matrix only logs it and goes on. *)
Theorem ReadCellsCSV_outcome (rows : list ReadResult) :
  match ReadCellsCSV rows with
  | NamesRead names =>
      (∀ r, r ∈ rows → ∃ items, r = ReadOk items) ∧
      names = omap nameOf rows ∧ ("" ∉ names) ∧
      (length names ≤ length rows)%nat
  | NamesFatal err =>
      ∃ before items after,
        rows = before ++ ReadErr items err :: after ∧
        ∀ r, r ∈ before → ∃ items', r = ReadOk items'
  | NamesPanic e => e = IndexOutOfRange 0 0 ∧ ReadOk [] ∈ rows
  end.
Proof.
  unfold ReadCellsCSV. pose proof (readCells_outcome rows []) as Hrows.
  destruct (readCells rows []) as [names|err|e]; [|done..].
  destruct Hrows as [Hok ->]. simpl. split_and!; [done|done|..].
  - apply nameOf_nonempty.
  - apply omap_length_le.
Qed.

(** ** The loader: blank records, the log, the names stored *)

Lemma readLoop_skip_blank names rows st :
  readLoop names rows st
  = readLoop names (filter (λ r, isBlank r = false) rows) st.
Proof.
  revert st. induction rows as [|r rows IH]; intros st; [done|].
  rewrite filter_cons. destruct (isBlank r) eqn:Hblank.
  - rewrite decide_False by done. destruct r as [items|]; [|done].
    apply bool_decide_eq_true in Hblank.
    rewrite readLoop_cons. by erewrite bind_Return by (by apply readStep_blank).
  - rewrite decide_True by done. rewrite !readLoop_cons. unfold mbind, M_bind.
    destruct (readStep names r st) as [[[] st']| |]; [apply IH|done..].
Qed.

(** X12: when the reader reports no error, records with a blank first
    field, wherever and however many they are, do not show in the result:
    the load is the load of the records without them. *)
Theorem ReadConnectionsCSV_skip_blank (names : CellList) (rows : list ReadResult) :
  (∀ r, r ∈ rows → ∃ items, r = ReadOk items) →
  ReadConnectionsCSV names rows
  = ReadConnectionsCSV names (filter (λ r, isBlank r = false) rows).
Proof. intros _. unfold ReadConnectionsCSV. by rewrite readLoop_skip_blank. Qed.

Lemma ReadConnectionsCSV_skip_blank_witness :
  ReadConnectionsCSV exampleNames
    [ReadOk ["0"; "5"; "0"]; ReadOk [""; ""; ""]; ReadOk ["2"; "0"; "0"]]
  = ReadConnectionsCSV exampleNames
      (filter (λ r, isBlank r = false)
         [ReadOk ["0"; "5"; "0"]; ReadOk [""; ""; ""]; ReadOk ["2"; "0"; "0"]]).
Proof.
  apply (ReadConnectionsCSV_skip_blank exampleNames
           [ReadOk ["0"; "5"; "0"]; ReadOk [""; ""; ""]; ReadOk ["2"; "0"; "0"]]).
  intros r Hr. repeat (apply elem_of_cons in Hr as [->|Hr]; [by eexists|]).
  by apply elem_of_nil in Hr.
Defined.

Lemma readRow_namesFrom names items st st' :
  namesFrom names (connects st) →
  readRow names items st = Return (tt, st') →
  namesFrom names (connects st') ∧ logged st' = logged st.
Proof.
  intros Hfrom Hret. unfold readRow in Hret.
  apply bind_inv in Hret as (st0 & st1 & [-> ->]%get_inv & Hret).
  apply bind_inv in Hret as (preName & st1 & Hpre & Hret).
  apply lift_inv in Hpre as [[_ Hpre%list_elem_of_lookup_2]%index_inv ->].
  revert Hret.
  apply (foldM_invariant _
    (λ _ st1, namesFrom names (connects st1) ∧ logged st1 = logged st));
    [|done].
  intros [] i st1 [] st2 _ [Hfrom1 Hlog1] Hbody.
  apply bind_inv in Hbody as (postName & st3 & Hpost & Hbody).
  apply lift_inv in Hpost as [[_ Hpost%list_elem_of_lookup_2]%index_inv ->].
  apply bind_inv in Hbody as (item & st3 & Hitem & Hbody).
  apply lift_inv in Hitem as [_ ->].
  destruct (Atoi item) as [strength|]; [|done].
  case_decide; [|unfold_M; by simplify_eq].
  rewrite onConnects_AddConnection in Hbody. simplify_eq. simpl.
  split; [|done]. intros p q v. rewrite entry_insert.
  destruct (decide (preName = p)) as [<-|]; [|apply Hfrom1].
  destruct (decide (postName = q)) as [<-|]; [done|].
  intros Hq. apply (Hfrom1 preName q v). unfold entry.
  by destruct (connects st1 !! preName).
Qed.

Lemma readLoop_namesFrom_log names rows st st' :
  namesFrom names (connects st) →
  readLoop names rows st = Return (tt, st') →
  namesFrom names (connects st') ∧
  logged st' = logged st ++ omap warningOf rows.
Proof.
  revert st. induction rows as [|r rows IH]; intros st Hfrom Hret.
  - unfold readLoop in Hret. simpl in Hret. unfold_M. simplify_eq.
    by rewrite app_nil_r.
  - rewrite readLoop_cons in Hret.
    apply bind_inv in Hret as ([] & st1 & Hstep & Hret).
    assert (namesFrom names (connects st1) ∧
            logged st1 = logged st ++ option_list (warningOf r)) as [Hfrom1 Hlog1].
    { destruct r as [items|items err].
      - unfold readStep in Hstep.
        apply bind_inv in Hstep as (item0 & st2 & Hitem0 & Hstep).
        apply lift_inv in Hitem0 as [_ ->]. simpl. rewrite app_nil_r.
        case_decide; [unfold_M; by simplify_eq|].
        case_decide; [done|].
        apply bind_inv in Hstep as ([] & st2 & Hrow & Hstep).
        apply readRow_namesFrom in Hrow as [? ?]; [|done].
        unfold incrBodyNum in Hstep. by simplify_eq.
      - rewrite readStep_error in Hstep. by simplify_eq. }
    apply IH in Hret as [? ->]; [|done]. split; [done|].
    rewrite Hlog1, <-app_assoc. f_equal. simpl. by destruct (warningOf r).
Qed.

(** X13: a load that returns has logged one warning for each record the
    reader reported an error for, in their order, and nothing else. *)
Theorem ReadConnectionsCSV_log (names : CellList) (rows : list ReadResult)
    (nc : NamedConnectome) (log : list string) :
  ReadConnectionsCSV names rows = Return (nc, log) →
  log = omap warningOf rows.
Proof.
  unfold ReadConnectionsCSV. intros Hret.
  destruct (readLoop names rows newLoader) as [[[] st]| |] eqn:Hloop; [|done..].
  simplify_eq. apply readLoop_namesFrom_log in Hloop as [_ ->]; [done|].
  intros p q v. unfold entry. simpl. by rewrite lookup_empty.
Qed.

Lemma ReadConnectionsCSV_log_witness :
  ["Warning: bare quote"]
  = omap warningOf [ReadErr [] "bare quote"; ReadOk ["2"; "0"; "0"]].
Proof.
  apply (ReadConnectionsCSV_log exampleNames
           [ReadErr [] "bare quote"; ReadOk ["2"; "0"; "0"]]
           {[ "B" := {[ "A" := 2 ]} ]}).
  vm_compute. reflexivity.
Defined.

(** X14: whatever the records, the connectome a load returns connects
    names of the table only, on both sides. *)
Theorem ReadConnectionsCSV_names (names : CellList) (rows : list ReadResult)
    (nc : NamedConnectome) (log : list string) :
  ReadConnectionsCSV names rows = Return (nc, log) →
  ∀ p q v, entry nc p q = Some v → p ∈ names ∧ q ∈ names.
Proof.
  unfold ReadConnectionsCSV. intros Hret.
  destruct (readLoop names rows newLoader) as [[[] st]| |] eqn:Hloop; [|done..].
  simplify_eq. apply readLoop_namesFrom_log in Hloop as [Hfrom _]; [done|].
  intros p q v. unfold entry. simpl. by rewrite lookup_empty.
Qed.

Lemma ReadConnectionsCSV_names_witness :
  "A" ∈ exampleNames ∧ "B" ∈ exampleNames.
Proof.
  apply (ReadConnectionsCSV_names exampleNames exampleRows exampleConnectome [])
    with (v := 5).
  - vm_compute. reflexivity.
  - vm_compute. reflexivity.
Defined.

(** ** The loader on a matrix *)

(** A loop whose body returns and keeps an invariant, returns and keeps
    it. *)
Lemma foldM_total_prefix {S A B} (f : A → B → M S A)
    (I : list B → A → S → Prop) l a s :
  (∀ visited x rest a s, l = visited ++ x :: rest → I visited a s →
     ∃ a' s', f a x s = Return (a', s') ∧ I (visited ++ [x]) a' s') →
  I [] a s → ∃ a' s', foldM f l a s = Return (a', s') ∧ I l a' s'.
Proof.
  intros Hstep.
  assert (∀ rest visited a s, l = visited ++ rest → I visited a s →
            ∃ a' s', foldM f rest a s = Return (a', s') ∧ I l a' s') as Hgen.
  { induction rest as [|x rest IH]; intros visited a0 s0 Hl Ha; simpl.
    - rewrite app_nil_r in Hl. subst. by exists a0, s0.
    - destruct (Hstep visited x rest a0 s0 Hl Ha) as (a1 & s1 & Hx & Ha1).
      erewrite bind_Return by exact Hx.
      apply (IH (visited ++ [x])); [by rewrite <-app_assoc|done]. }
  intros Ha. by apply (Hgen l [] a s).
Qed.

Lemma Atoi_empty : Atoi "" = None.
Proof. reflexivity. Qed.

(** The fields of a row of the matrix, one by one. *)
Lemma readRow_field (names : CellList) (items : list string) (i : Z) :
  length items = length names → Forall (λ item, is_Some (Atoi item)) items →
  0 ≤ i < Z.of_nat (length items) →
  ∃ postName item strength,
    names !! Z.to_nat i = Some postName ∧ items !! Z.to_nat i = Some item ∧
    index names i = Return postName ∧ index items i = Return item ∧
    Atoi item = Some strength.
Proof.
  intros Hlen Hparse Hi.
  destruct (index_in_range names i) as (postName & Hpost & Hpost'); [lia|].
  destruct (index_in_range items i Hi) as (item & Hitem & Hitem').
  rewrite Forall_forall in Hparse.
  destruct (Hparse item) as [strength Hstrength];
    [by eapply list_elem_of_lookup_2|].
  by exists postName, item, strength.
Qed.

Lemma readRow_Return (names : CellList) (items : list string) st :
  0 ≤ bodyNum st < Z.of_nat (length names) →
  length items = length names → Forall (λ item, is_Some (Atoi item)) items →
  ∃ st', readRow names items st = Return (tt, st') ∧
         bodyNum st' = bodyNum st ∧ logged st' = logged st.
Proof.
  intros Hnum Hlen Hparse. unfold readRow.
  erewrite bind_Return by reflexivity.
  destruct (index_in_range names (bodyNum st) Hnum) as (preName & Hpre & _).
  erewrite bind_Return by (unfold lift; by rewrite Hpre).
  edestruct (foldM_total_prefix
    (λ (_ : unit) i,
       postName ← lift (index names i);
       item ← lift (index items i);
       match Atoi item with
       | Some strength =>
           if decide (strength > 0)
           then onConnects (AddConnection preName postName strength)
           else mret ()
       | None => fatal (CouldNotParse items)
       end)
    (λ _ _ st1, bodyNum st1 = bodyNum st ∧ logged st1 = logged st)
    (seqZ 0 (Z.of_nat (length items))) tt st) as ([] & st' & Hret & Hinv);
    [| |by exists st'].
  - intros visited i rest [] st1 Hcols [Hnum1 Hlog1].
    assert (0 ≤ i < Z.of_nat (length items)) as Hi.
    { assert (i ∈ seqZ 0 (Z.of_nat (length items))) as Hin.
      { rewrite Hcols. apply elem_of_app. right. apply list_elem_of_here. }
      apply elem_of_seqZ in Hin. lia. }
    destruct (readRow_field names items i Hlen Hparse Hi)
      as (postName & item & strength & _ & _ & Hpost & Hitem & Hstrength).
    erewrite bind_Return by (unfold lift; by rewrite Hpost).
    erewrite bind_Return by (unfold lift; by rewrite Hitem).
    rewrite Hstrength. case_decide.
    + rewrite onConnects_AddConnection. by eexists _, _.
    + by exists tt, st1.
  - done.
Qed.

Lemma matrixRow_first (names : CellList) (items : list string) :
  (0 < length items)%nat → Forall (λ item, is_Some (Atoi item)) items →
  ∃ item0, items !! 0%nat = Some item0 ∧ item0 ≠ "".
Proof.
  intros Hlen Hparse. destruct items as [|item0 items]; [simpl in Hlen; lia|].
  exists item0. split; [done|]. intros ->.
  apply Forall_cons in Hparse as [[? Hparse] _]. by rewrite Atoi_empty in Hparse.
Qed.

Lemma readStep_matrixRow (names : CellList) r st :
  matrixRow names r → Z.of_nat (length names) ≤ int_max →
  if decide (0 ≤ bodyNum st < Z.of_nat (length names)) then
    ∃ st', readStep names r st = Return (tt, st') ∧
           bodyNum st' = bodyNum st + 1 ∧ logged st' = logged st
  else
    readStep names r st
    = Panic (IndexOutOfRange (bodyNum st) (Z.of_nat (length names))).
Proof.
  intros (items & -> & Hlen & Hpos & Hparse) Hmax. unfold readStep.
  destruct (matrixRow_first names items Hpos Hparse) as (item0 & Hitem0 & Hne).
  rewrite (index_Return items 0 item0) by done.
  erewrite bind_Return by reflexivity.
  rewrite !(decide_False (P := item0 = "")) by done.
  rewrite !(decide_False (P := Z.of_nat (length items) ≠ Z.of_nat (length names)))
    by lia.
  case_decide as Hnum.
  - destruct (readRow_Return names items st Hnum Hlen Hparse)
      as (st1 & Hrow & Hnum1 & Hlog1).
    erewrite bind_Return by exact Hrow. unfold incrBodyNum. eexists. split; [done|].
    simpl. rewrite Hnum1, int_add_succ by (unfold int_min; lia). done.
  - apply bind_Panic. unfold readRow.
    erewrite bind_Return by reflexivity.
    apply bind_Panic. unfold lift. by rewrite index_Panic.
Qed.

(** X15: on a matrix of well-formed rows the loader returns, logging
    nothing, when there are no more rows than names; when there are more,
    it panics on [names[bodyNum]] at the first row beyond the table,
    without a fatal message. *)
Theorem ReadConnectionsCSV_rows_and_names (names : CellList) (rows : list ReadResult) :
  Forall (matrixRow names) rows → Z.of_nat (length names) ≤ int_max →
  if decide (length rows ≤ length names)%nat then
    ∃ nc, ReadConnectionsCSV names rows = Return (nc, [])
  else
    ReadConnectionsCSV names rows
    = Panic (IndexOutOfRange (Z.of_nat (length names)) (Z.of_nat (length names))).
Proof.
  intros Hrows Hmax.
  assert (∀ rows st, Forall (matrixRow names) rows → 0 ≤ bodyNum st →
    if decide (bodyNum st + Z.of_nat (length rows) ≤ Z.of_nat (length names)) then
      ∃ st', readLoop names rows st = Return (tt, st') ∧ logged st' = logged st
    else
      bodyNum st ≤ Z.of_nat (length names) →
      readLoop names rows st
      = Panic (IndexOutOfRange (Z.of_nat (length names)) (Z.of_nat (length names))))
    as Hloop.
  { clear rows Hrows. intros rows st Hrows. revert st.
    induction Hrows as [|r rows Hr _ IH]; intros st Hnum.
    - simpl. case_decide; [by exists st|lia].
    - rewrite readLoop_cons.
      pose proof (readStep_matrixRow names r st Hr Hmax) as Hstep.
      destruct (decide (0 ≤ bodyNum st < Z.of_nat (length names))) as [Hin|Hout].
      + destruct Hstep as (st1 & Hstep & Hnum1 & Hlog1).
        erewrite bind_Return by exact Hstep.
        specialize (IH st1). rewrite Hnum1, Hlog1 in IH. simpl length.
        destruct (decide (bodyNum st + 1 + Z.of_nat (length rows)
                          ≤ Z.of_nat (length names))).
        * rewrite decide_True by lia. apply IH. lia.
        * rewrite decide_False by lia. intros _. apply IH; lia.
      + simpl length. rewrite decide_False by lia. intros Hle.
        erewrite bind_Panic by exact Hstep. do 2 f_equal. lia. }
  pose proof (Hloop rows newLoader Hrows) as Hnew.
  change (bodyNum newLoader) with 0 in Hnew.
  change (logged newLoader) with (@nil string) in Hnew.
  unfold ReadConnectionsCSV.
  destruct (decide (0 + Z.of_nat (length rows) ≤ Z.of_nat (length names)))
    as [Hle|Hgt].
  - rewrite decide_True by lia.
    destruct Hnew as (st' & -> & Hlog); [lia|]. exists (connects st').
    by rewrite Hlog.
  - rewrite decide_False by lia. rewrite Hnew; [done|lia..].
Qed.

Lemma matrixRow_example : Forall (matrixRow exampleNames) exampleRows.
Proof.
  repeat constructor; eexists; (split_and!; [done|done|simpl; lia|]);
    repeat constructor; vm_compute; by eexists.
Qed.

Lemma ReadConnectionsCSV_rows_and_names_witness :
  if decide (length exampleRows ≤ length exampleNames)%nat then
    ∃ nc, ReadConnectionsCSV exampleNames exampleRows = Return (nc, [])
  else
    ReadConnectionsCSV exampleNames exampleRows
    = Panic (IndexOutOfRange (Z.of_nat (length exampleNames))
               (Z.of_nat (length exampleNames))).
Proof.
  apply (ReadConnectionsCSV_rows_and_names exampleNames exampleRows).
  - exact matrixRow_example.
  - vm_compute. discriminate.
Defined.

(** Four rows for three names. *)
Example too_many_rows :
  ReadConnectionsCSV exampleNames (exampleRows ++ [ReadOk ["0"; "0"; "1"]])
  = Panic (IndexOutOfRange 3 3).
Proof. vm_compute. reflexivity. Qed.

Section DenseMatrix.
Variable names : CellList.
Hypothesis names_distinct : NoDup names.

(** The row of a name that has no entry yet: afterwards its entries are
    the positive fields of the row, under the names of their columns. *)
Lemma readRow_dense (items : list string) (st : Loader) (p : string) :
  0 ≤ bodyNum st → names !! Z.to_nat (bodyNum st) = Some p →
  length items = length names → Forall (λ item, is_Some (Atoi item)) items →
  (∀ q, entry (connects st) p q = None) →
  ∃ st', readRow names items st = Return (tt, st') ∧
    bodyNum st' = bodyNum st ∧ logged st' = logged st ∧
    ∀ p' q v, entry (connects st') p' q = Some v ↔
      entry (connects st) p' q = Some v ∨
      (p' = p ∧ ∃ c, names !! c = Some q ∧ fieldStrength items c = Some v).
Proof.
  intros Hnum Hp Hlen Hparse Hfresh. unfold readRow.
  erewrite bind_Return by reflexivity.
  erewrite bind_Return by (unfold lift; by rewrite (index_Return names _ p)).
  edestruct (foldM_total_prefix
    (λ (_ : unit) i,
       postName ← lift (index names i);
       item ← lift (index items i);
       match Atoi item with
       | Some strength =>
           if decide (strength > 0)
           then onConnects (AddConnection p postName strength)
           else mret ()
       | None => fatal (CouldNotParse items)
       end)
    (λ visited _ st1, bodyNum st1 = bodyNum st ∧ logged st1 = logged st ∧
       ∀ p' q v, entry (connects st1) p' q = Some v ↔
         entry (connects st) p' q = Some v ∨
         (p' = p ∧ ∃ c, Z.of_nat c ∈ visited ∧ names !! c = Some q ∧
                        fieldStrength items c = Some v))
    (seqZ 0 (Z.of_nat (length items))) tt st) as ([] & st' & Hret & Hinv).
  - intros visited i rest [] st1 Hcols (Hnum1 & Hlog1 & Hentries).
    assert (0 ≤ i < Z.of_nat (length items) ∧ i ∉ visited) as [Hi Hnew].
    { pose proof (NoDup_seqZ 0 (Z.of_nat (length items))) as Hnodup.
      assert (i ∈ seqZ 0 (Z.of_nat (length items))) as Hin.
      { rewrite Hcols. apply elem_of_app. right. apply list_elem_of_here. }
      apply elem_of_seqZ in Hin. split; [lia|].
      rewrite Hcols in Hnodup. apply NoDup_app in Hnodup as (_ & Hdisj & _).
      intros Hv. apply (Hdisj i Hv), list_elem_of_here. }
    destruct (readRow_field names items i Hlen Hparse Hi)
      as (postName & item & strength & Hpost' & Hitem' & Hpost & Hitem & Hstrength).
    erewrite bind_Return by (unfold lift; by rewrite Hpost).
    erewrite bind_Return by (unfold lift; by rewrite Hitem).
    rewrite Hstrength.
    assert (∀ c q, names !! c = Some q → Z.of_nat c ∈ visited ++ [i] ↔
              Z.of_nat c ∈ visited ∨ (c = Z.to_nat i ∧ q = postName)) as Hcol.
    { intros c q Hq. rewrite elem_of_app, list_elem_of_singleton. split.
      - intros [?|<-]; [by left|right]. rewrite Nat2Z.id in Hpost'.
        split; [lia|congruence].
      - intros [?|[-> _]]; [by left|right]. lia. }
    assert (fieldStrength items (Z.to_nat i)
            = if decide (strength > 0) then Some strength else None) as Hfield.
    { unfold fieldStrength. by rewrite Hitem', Hstrength. }
    assert (∀ c q v, names !! c = Some q → Z.of_nat c ∈ visited →
              fieldStrength items c = Some v → q ≠ postName) as Hother.
    { intros c q v Hq Hc _ ->. apply Hnew.
      assert (c = Z.to_nat i) as -> by (by eapply NoDup_lookup).
      by rewrite Z2Nat.id in Hc by lia. }
    case_decide as Hpositive.
    + rewrite onConnects_AddConnection. eexists tt, _. split; [done|]. simpl.
      assert (entry (connects st1) p postName = None) as ->.
      { destruct (entry (connects st1) p postName) as [v|] eqn:Hentry; [|done].
        apply Hentries in Hentry as [Hentry|(_ & c & Hc & Hq & Hv)].
        - by rewrite Hfresh in Hentry.
        - by destruct (Hother c postName v). }
      split_and!; [done|done|]. intros p' q v. rewrite entry_insert.
      destruct (decide (p = p')) as [<-|Hp'].
      * destruct (decide (postName = q)) as [<-|Hq].
        -- split.
           ++ intros [= <-]. right. split; [done|]. exists (Z.to_nat i).
              split_and!; [|done|done]. apply (Hcol _ postName); [done|]. by right.
           ++ intros [Hentry|(_ & c & Hc & Hq & Hv)];
                [by rewrite Hfresh in Hentry|].
              apply (Hcol _ _ Hq) in Hc as [Hc|[-> _]].
              ** by destruct (Hother c postName v).
              ** congruence.
        -- transitivity (entry (connects st1) p q = Some v).
           { unfold entry. by destruct (connects st1 !! p). }
           rewrite Hentries. split.
           ++ intros [?|(_ & c & Hc & Hq' & Hv)]; [by left|right].
              split; [done|]. exists c. split_and!; [|done..].
              apply (Hcol _ _ Hq'). by left.
           ++ intros [?|(_ & c & Hc & Hq' & Hv)]; [by left|right].
              split; [done|]. exists c. split_and!; [|done..].
              apply (Hcol _ _ Hq') in Hc as [?|[_ ->]]; done.
      * rewrite Hentries. split; (intros [?|[-> _]]; [by left|done]).
    + exists tt, st1. split; [done|]. split_and!; [done|done|].
      intros p' q v. rewrite Hentries. split.
      * intros [?|(-> & c & Hc & Hq & Hv)]; [by left|right].
        split; [done|]. exists c. split_and!; [|done..].
        apply (Hcol _ _ Hq). by left.
      * intros [?|(-> & c & Hc & Hq & Hv)]; [by left|right].
        split; [done|]. exists c. split_and!; [|done..].
        apply (Hcol _ _ Hq) in Hc as [?|[-> _]]; [done|congruence].
  - split_and!; [done|done|]. intros p' q v. split; [by left|].
    intros [?|(_ & c & Hc%elem_of_nil & _)]; done.
  - exists st'. destruct Hinv as (Hnum' & Hlog' & Hentries).
    split_and!; [done..|]. intros p' q v. rewrite Hentries. split.
    + intros [?|(-> & c & _ & Hq & Hv)]; [by left|right]. split; [done|].
      by exists c.
    + intros [?|(-> & c & Hq & Hv)]; [by left|right]. split; [done|].
      exists c. split_and!; [|done..]. apply elem_of_seqZ.
      apply lookup_lt_Some in Hq. lia.
Qed.

Lemma cellStrength_snoc (rows : list ReadResult) (items : list string) (r c : nat) :
  cellStrength (rows ++ [ReadOk items]) r c
  = if decide (r = length rows) then fieldStrength items c
    else cellStrength rows r c.
Proof.
  unfold cellStrength. case_decide as Hr.
  - subst. by rewrite list_lookup_middle.
  - destruct (decide (r < length rows)%nat).
    + by rewrite lookup_app_l.
    + rewrite !lookup_ge_None_2; [done|lia|rewrite length_app; simpl; lia].
Qed.

Lemma cellStrength_lt (rows : list ReadResult) (r c : nat) (v : Z) :
  cellStrength rows r c = Some v → (r < length rows)%nat.
Proof.
  unfold cellStrength. destruct (rows !! r) eqn:Hr; [|done].
  intros _. by eapply lookup_lt_Some.
Qed.

(** X16: for pairwise distinct names, the loader turns a matrix of
    well-formed rows, no more of them than names, into the connectome that
    holds, from the name of the row to the name of the column, exactly the
    fields that are positive: a zero or negative field leaves no entry, and
    no log line is written. *)
Theorem ReadConnectionsCSV_dense (rows : list ReadResult) :
  Forall (matrixRow names) rows → (length rows ≤ length names)%nat →
  Z.of_nat (length names) ≤ int_max →
  ∃ nc,
    ReadConnectionsCSV names rows = Return (nc, []) ∧
    ∀ p q v, entry nc p q = Some v ↔
      ∃ r c, names !! r = Some p ∧ names !! c = Some q ∧
             cellStrength rows r c = Some v.
Proof.
  intros Hrows Hlen Hmax.
  destruct (foldM_total_prefix (λ _ r, readStep names r)
    (λ visited _ st, bodyNum st = Z.of_nat (length visited) ∧ logged st = [] ∧
       ∀ p q v, entry (connects st) p q = Some v ↔
         ∃ r c, names !! r = Some p ∧ names !! c = Some q ∧
                cellStrength visited r c = Some v)
    rows tt newLoader) as ([] & st' & Hret & Hinv).
  - intros visited row rest [] st Hsplit (Hnum & Hlog & Hentries).
    assert (matrixRow names row) as (items & -> & Hshape & Hpos & Hparse).
    { rewrite Forall_forall in Hrows. apply Hrows. rewrite Hsplit.
      apply elem_of_app. right. apply list_elem_of_here. }
    assert (length visited < length names)%nat as Hk.
    { rewrite Hsplit, length_app in Hlen. simpl in Hlen. lia. }
    destruct (lookup_lt_is_Some_2 names (length visited) Hk) as [p Hp].
    destruct (matrixRow_first names items Hpos Hparse) as (item0 & Hitem0 & Hne).
    destruct (readRow_dense items st p) as (st1 & Hrow & Hnum1 & Hlog1 & Hentries1);
      [lia|by rewrite Hnum, Nat2Z.id|done|done| |].
    { intros q. destruct (entry (connects st) p q) as [v|] eqn:Hentry; [|done].
      apply Hentries in Hentry as (r & c & Hr & _ & Hcell%cellStrength_lt).
      assert (r = length visited) by (by eapply NoDup_lookup). lia. }
    unfold readStep. rewrite (index_Return items 0 item0) by done.
    erewrite bind_Return by reflexivity.
    rewrite decide_False by done. rewrite decide_False by lia.
    erewrite bind_Return by exact Hrow. unfold incrBodyNum.
    eexists tt, _. split; [done|]. simpl.
    rewrite Hnum1, Hnum, int_add_succ by (unfold int_min; lia).
    rewrite length_app. simpl. split_and!; [lia|congruence|].
    intros p' q v. rewrite Hentries1, Hentries. split.
    + intros [(r & c & Hr & Hc & Hcell)|(-> & c & Hc & Hfield)].
      * exists r, c. split_and!; [done..|]. rewrite cellStrength_snoc.
        apply cellStrength_lt in Hcell as Hlt. by rewrite decide_False by lia.
      * exists (length visited), c. split_and!; [done..|].
        by rewrite cellStrength_snoc, decide_True.
    + intros (r & c & Hr & Hc & Hcell). rewrite cellStrength_snoc in Hcell.
      case_decide as Hlast.
      * right. subst r. split; [congruence|]. by exists c.
      * left. by exists r, c.
  - split_and!; [done..|]. intros p q v. unfold entry. simpl.
    rewrite lookup_empty. simpl. split; [done|].
    by intros (r & c & _ & _ & ?).
  - destruct Hinv as (_ & Hlog & Hentries). exists (connects st').
    unfold ReadConnectionsCSV, readLoop. by rewrite Hret, Hlog.
Qed.

End DenseMatrix.

Lemma ReadConnectionsCSV_dense_witness :
  ∃ nc,
    ReadConnectionsCSV exampleNames exampleRows = Return (nc, []) ∧
    ∀ p q v, entry nc p q = Some v ↔
      ∃ r c, exampleNames !! r = Some p ∧ exampleNames !! c = Some q ∧
             cellStrength exampleRows r c = Some v.
Proof.
  apply (ReadConnectionsCSV_dense exampleNames).
  - apply (bool_decide_unpack _). vm_compute. exact I.
  - exact matrixRow_example.
  - simpl. lia.
  - vm_compute. discriminate.
Defined.

(** ** The loader on a field that is no integer *)

Lemma readRow_unparsable (names : CellList) (items : list string) (st : Loader) :
  0 ≤ bodyNum st < Z.of_nat (length names) → length items = length names →
  (∃ item, item ∈ items ∧ Atoi item = None) →
  readRow names items st = Fatal (CouldNotParse items).
Proof.
  intros Hnum Hlen (bad & Hbad & Hnone). unfold readRow.
  erewrite bind_Return by reflexivity.
  destruct (index_in_range names (bodyNum st) Hnum) as (preName & Hpre & _).
  erewrite bind_Return by (unfold lift; by rewrite Hpre).
  apply list_elem_of_lookup in Hbad as [k Hk].
  assert (Z.of_nat k ∈ seqZ 0 (Z.of_nat (length items))) as Hin.
  { apply elem_of_seqZ. apply lookup_lt_Some in Hk. lia. }
  assert (∀ i, i ∈ seqZ 0 (Z.of_nat (length items)) →
               0 ≤ i < Z.of_nat (length items)) as Hcols.
  { intros i Hi%elem_of_seqZ. lia. }
  revert Hin Hcols. generalize (seqZ 0 (Z.of_nat (length items))). generalize st.
  intros st1 cols. revert st1.
  induction cols as [|i cols IH]; intros st1 Hin Hcols; [by apply elem_of_nil in Hin|].
  simpl.
  destruct (index_in_range names i) as (postName & Hpost & _).
  { rewrite <-Hlen. apply Hcols, list_elem_of_here. }
  destruct (index_in_range items i) as (item & Hitem & Hitem').
  { apply Hcols, list_elem_of_here. }
  destruct (Atoi item) as [strength|] eqn:Hstrength.
  - assert (Z.of_nat k ∈ cols) as Hin'.
    { apply elem_of_cons in Hin as [<-|?]; [|done].
      rewrite Nat2Z.id in Hitem'. congruence. }
    assert (∀ j, j ∈ cols → 0 ≤ j < Z.of_nat (length items)) as Hcols'.
    { intros j Hj. by apply Hcols, list_elem_of_further. }
    destruct (decide (strength > 0)) as [Hpositive|Hpositive].
    + erewrite bind_Return; [by apply IH|].
      erewrite bind_Return by (unfold lift; by rewrite Hpost).
      erewrite bind_Return by (unfold lift; by rewrite Hitem).
      rewrite Hstrength, decide_True by done. apply onConnects_AddConnection.
    + erewrite bind_Return; [by apply IH|].
      erewrite bind_Return by (unfold lift; by rewrite Hpost).
      erewrite bind_Return by (unfold lift; by rewrite Hitem).
      by rewrite Hstrength, decide_False by done.
  - apply bind_Fatal.
    erewrite bind_Return by (unfold lift; by rewrite Hpost).
    erewrite bind_Return by (unfold lift; by rewrite Hitem).
    by rewrite Hstrength.
Qed.

(** X17: a record with the right number of fields and a non-blank first
    field that has a field that is no decimal integer stops the load with
    the fatal parse error, when the load comes to it with a row of the
    name table left; the connections of the fields before it in the
    record are lost with the rest. *)
Theorem unparsable_field_fatal (names : CellList) (before after : list ReadResult)
    (items : list string) (item0 : string) (st : Loader) :
  readLoop names before newLoader = Return (tt, st) →
  0 ≤ bodyNum st < Z.of_nat (length names) →
  items !! 0%nat = Some item0 → item0 ≠ "" → length items = length names →
  (∃ item, item ∈ items ∧ Atoi item = None) →
  ReadConnectionsCSV names (before ++ ReadOk items :: after)
  = Fatal (CouldNotParse items).
Proof.
  intros Hbefore Hnum Hitem0 Hne Hlen Hbad. unfold ReadConnectionsCSV.
  rewrite readLoop_app. erewrite bind_Return by exact Hbefore.
  rewrite readLoop_cons.
  erewrite bind_Fatal; [done|]. unfold readStep.
  rewrite (index_Return items 0 item0) by done.
  erewrite bind_Return by reflexivity.
  rewrite decide_False by done. rewrite decide_False by lia.
  apply bind_Fatal. by apply readRow_unparsable.
Qed.

Lemma unparsable_field_fatal_witness :
  ReadConnectionsCSV exampleNames
    ([ReadOk ["0"; "5"; "0"]] ++ ReadOk ["2"; "x"; "0"] :: [ReadOk ["0"; "0"; "0"]])
  = Fatal (CouldNotParse ["2"; "x"; "0"]).
Proof.
  apply (unparsable_field_fatal exampleNames [ReadOk ["0"; "5"; "0"]]
           [ReadOk ["0"; "0"; "0"]] ["2"; "x"; "0"] "2"
           (mkLoader {[ "A" := {[ "B" := 5 ]} ]} 1 [])).
  - vm_compute. reflexivity.
  - vm_compute. split; [discriminate|reflexivity].
  - reflexivity.
  - discriminate.
  - reflexivity.
  - exists "x". split; [|reflexivity]. apply list_elem_of_further, list_elem_of_here.
Defined.
